(** * gaussian_renderer: the per-frame primitive preparation pipeline

    A shallow embedding of [src/gaussian_renderer/__init__.py]: the three
    entry points [render], [render_no_train] and [deform_gs].

    Tensors are sequences of rows (one row per primitive).  Calls to the
    collaborators (autograd, the deformation network, [eval_sh], the
    rasterizer) are recorded in a trace, and Python exceptions are the
    left summand of the result. *)

From Stdlib Require Import String Ascii ZArith QArith.
From mathcomp Require Import ssreflect ssrfun ssrbool eqtype ssrnat seq.

Set Implicit Arguments.
Unset Strict Implicit.
Unset Printing Implicit Defensive.

Close Scope Q_scope.

(* ===================================================================== *)
(** ** Python control flow: exceptions and the trace of external calls *)
(* ===================================================================== *)

(** The exceptions the three functions can end with.  [ExternalError] is
    an exception raised inside a collaborator and propagated unchanged. *)
Inductive exn : Type :=
| NotImplementedError
| TypeError
| AttributeError
| IndexError
| RuntimeError
| ExternalError of string.

Section PyMonad.

Variable Ev : Type.

(** A computation yields the calls it made, in order, and either the
    exception it raised or its value. *)
Definition M (A : Type) : Type := (seq Ev * (exn + A))%type.

Definition ret {A} (a : A) : M A := ([::], inr a).

Definition raise {A} (e : exn) : M A := ([::], inl e).

Definition bind {A B} (m : M A) (k : A -> M B) : M B :=
  match m with
  | (t, inl e) => (t, inl e)
  | (t, inr a) => let: (t', r) := k a in (t ++ t', r)
  end.

(** A call to a collaborator: the call is logged, and the collaborator's
    own failure is wrapped as [ExternalError]. *)
Definition call {A} (ev : Ev) (r : string + A) : M A :=
  ([:: ev], match r with inl msg => inl (ExternalError msg) | inr a => inr a end).

(** [try: m except: pass]: a bare [except] catches every exception. *)
Definition try_except_pass (m : M unit) : M unit := (m.1, inr tt).

Definition trace {A} (m : M A) : seq Ev := m.1.
Definition outcome {A} (m : M A) : exn + A := m.2.

End PyMonad.

Arguments ret {Ev A} a.
Arguments raise {Ev A} e.

Notation "'let*' p ':=' m 'in' k" :=
  (bind m (fun p => k))
  (at level 10, p pattern, m at level 100, k at level 200).

(* ===================================================================== *)
(** ** Strings: the [in] operator *)
(* ===================================================================== *)

(** [sub in s] for Python strings: [sub] is a prefix of some suffix of [s]. *)
Fixpoint str_in (sub s : string) : bool :=
  String.prefix sub s ||
  match s with
  | EmptyString => false
  | String _ s' => str_in sub s'
  end.

(** [a != b] for [cam_type], whose default is [None]. *)
Definition py_neq_str (a : option string) (b : string) : bool :=
  match a with
  | Some s => ~~ String.eqb s b
  | None => true
  end.

(* ===================================================================== *)
(** ** Scalars and tensors *)
(* ===================================================================== *)

(** The element type of the tensors is the dtype of [pc.get_xyz]; the code
    is generic in it.  These are the scalar operations of [torch] and
    [math] the three functions use. *)
Class Scalar (F : Type) : Type := {
  fzero : F;
  fone : F;
  fhalf : F;                 (* the literal 0.5 *)
  fadd : F -> F -> F;
  fsub : F -> F -> F;
  fmul : F -> F -> F;
  fdiv : F -> F -> F;
  flt : F -> F -> bool;      (* x < y *)
  fsqrt : F -> F;
  ftan : F -> F              (* math.tan *)
}.

(** The arithmetic facts the proofs rely on. *)
Class ScalarLaws (F : Type) {num : Scalar F} : Prop := {
  fadd0r : forall x : F, fadd x fzero = x;
  fadd0l : forall x : F, fadd fzero x = x;
  flt_irrefl : forall x : F, flt x x = false
}.

Arguments ScalarLaws F {num}.

Section Tensors.

Context {F : Type} {num : Scalar F}.

(** Rows of the per-primitive arrays: N x 3, N x 4, N x 1 and N x C x 3. *)
Definition vec3 : Type := (F * F * F)%type.
Definition quat : Type := (F * F * F * F)%type.

(** The coefficient tensor keeps its second dimension C = [shape1] even
    when it has no row. *)
Record SHs : Type := mkSHs { shape1 : nat; coeffs : seq (seq vec3) }.

(** One primitive's coefficients after [transpose(1, 2)]: 3 x C. *)
Definition sh_view_row : Type := (seq F * seq F * seq F)%type.

Definition map3 (f : F -> F) (v : vec3) : vec3 :=
  let: (x, y, z) := v in (f x, f y, f z).

Definition map4 (f : F -> F) (q : quat) : quat :=
  let: (w, x, y, z) := q in (f w, f x, f y, f z).

Definition zip3 (f : F -> F -> F) (u v : vec3) : vec3 :=
  let: (x, y, z) := u in let: (x', y', z') := v in (f x x', f y y', f z z').

Definition zero3 : vec3 := (fzero, fzero, fzero).

(** [torch.zeros_like(t)] and [t + 0] on an N x 3 tensor. *)
Definition zeros_like3 (t : seq vec3) : seq vec3 := [seq zero3 | _ <- t].
Definition add_scalar3 (t : seq vec3) (c : F) : seq vec3 :=
  [seq map3 (fun x => fadd x c) v | v <- t].
Definition add_scalar4 (t : seq quat) (c : F) : seq quat :=
  [seq map4 (fun x => fadd x c) q | q <- t].

(** [torch.norm(t, dim=1)]: the Euclidean norm of each row. *)
Definition norm3 (v : vec3) : F :=
  let: (x, y, z) := v in
  fsqrt (fadd (fadd (fmul x x) (fmul y y)) (fmul z z)).
Definition norm_dim1 (t : seq vec3) : seq F := [seq norm3 v | v <- t].

(** [t[mask]] with a boolean mask: the rows where the mask is true; torch
    raises [IndexError] when the mask is not as long as the tensor. *)
Definition index_mask {Ev T} (t : seq T) (m : bitseq) : M Ev (seq T) :=
  if size m == size t then ret (mask m t) else raise IndexError.

Definition index_mask_shs {Ev} (t : SHs) (m : bitseq) : M Ev SHs :=
  if size m == size (coeffs t) then ret (mkSHs (shape1 t) (mask m (coeffs t)))
  else raise IndexError.

(** [torch.cat([a, b], dim=0)] on coefficient tensors: the second
    dimensions must agree. *)
Definition cat_shs {Ev} (a b : SHs) : M Ev SHs :=
  if shape1 a == shape1 b then ret (mkSHs (shape1 a) (coeffs a ++ coeffs b))
  else raise RuntimeError.

(** [a - b] on N x 3 tensors, with broadcasting of a one-row operand. *)
Definition sub_rows {Ev} (a b : seq vec3) : M Ev (seq vec3) :=
  if size a == size b then ret [seq zip3 fsub p.1 p.2 | p <- zip a b]
  else if b is [:: v] then ret [seq zip3 fsub u v | u <- a]
  else if a is [:: u] then ret [seq zip3 fsub u v | v <- b]
  else raise RuntimeError.

(** [t / t.norm(dim=1, keepdim=True)]. *)
Definition normalize_rows (t : seq vec3) : seq vec3 :=
  [seq map3 (fun x => fdiv x (norm3 v)) v | v <- t].

(** [torch.clamp_min(x, m)]. *)
Definition clamp_min (x m : F) : F := if flt x m then m else x.

(** [t.transpose(1, 2).view(-1, 3, k)]: the view exists only when the
    coefficient width is [k]. *)
Definition transpose12 (row : seq vec3) : sh_view_row :=
  ([seq c.1.1 | c <- row], [seq c.1.2 | c <- row], [seq c.2 | c <- row]).

Definition transpose_view {Ev} (t : SHs) (k : nat) : M Ev (seq sh_view_row) :=
  if shape1 t == k then ret [seq transpose12 r | r <- coeffs t]
  else raise RuntimeError.

(** An activation of [torch] ([exp], [sigmoid], [normalize]) applied to a
    Python value: it rejects [None]. *)
Definition activate {Ev T} (f : T -> T) (v : option T) : M Ev T :=
  match v with
  | Some t => ret (f t)
  | None => raise TypeError
  end.

End Tensors.

(* ===================================================================== *)
(** ** The data the renderer works on *)
(* ===================================================================== *)

Section Renderer.

Context {F : Type} {num : Scalar F}.

(** The images the rasterizer produces are opaque here. *)
Variables Image Depth : Type.

Local Notation vec3 := (@vec3 F).
Local Notation quat := (@quat F).
Local Notation SHs := (@SHs F).
Local Notation sh_view_row := (@sh_view_row F).

(** Modelled from the spec: the class [GaussianModel] of
    [scene.gaussian_model] is not in this package.  These are the
    attributes and methods of [pc] the three functions read; the three
    activations are tensor functions (exponential, normalisation,
    sigmoid); [_deformation] may fail, and it takes and gives back scales
    and rotations that may be [None]. *)
Record GaussianModel : Type := {
  get_xyz : seq vec3;
  _opacity : seq F;
  get_features : SHs;
  _scaling : seq vec3;
  _rotation : seq quat;
  _deformation_table : bitseq;
  active_sh_degree : nat;
  max_sh_degree : nat;
  get_covariance : F -> seq (seq F);
  _deformation :
    seq vec3 -> option (seq vec3) -> option (seq quat) -> seq F -> SHs -> seq F ->
    string + (seq vec3 * option (seq vec3) * option (seq quat) * seq F * SHs);
  scaling_activation : seq vec3 -> seq vec3;
  rotation_activation : seq quat -> seq quat;
  opacity_activation : seq F -> seq F
}.

(** [pipe]: the three flags read. *)
Record PipelineParams : Type := {
  debug : bool;
  compute_cov3D_python : bool;
  convert_SHs_python : bool
}.

(** [GaussianRasterizationSettings(...)], by keyword. *)
Record RasterSettings : Type := {
  rs_image_height : nat;
  rs_image_width : nat;
  rs_tanfovx : F;
  rs_tanfovy : F;
  rs_bg : seq F;
  rs_scale_modifier : F;
  rs_viewmatrix : seq (seq F);
  rs_projmatrix : seq (seq F);
  rs_sh_degree : nat;
  rs_campos : vec3;
  rs_prefiltered : bool;
  rs_debug : bool
}.

(** A camera object, with the attributes read. *)
Record Camera : Type := {
  FoVx : F;
  FoVy : F;
  image_height : nat;
  image_width : nat;
  world_view_transform : seq (seq F);
  full_proj_transform : seq (seq F);
  camera_center : vec3;
  time : F
}.

(** [viewpoint_camera] is a camera object, or (for "PanopticSports") a
    dict with the keys ['camera'] and ['time']. *)
Inductive Viewpoint : Type :=
| CameraObject of Camera
| CameraDict of RasterSettings & F.

(** The keyword arguments of the rasterizer call. *)
Record RasterArgs : Type := {
  means3D : seq vec3;
  means2D : seq vec3;
  shs : SHs;
  colors_precomp : option (seq vec3);
  opacities : seq F;
  scales : option (seq vec3);
  rotations : option (seq quat);
  cov3D_precomp : option (seq (seq F))
}.

(** The dict returned: "render", "viewspace_points", "visibility_filter",
    "radii", "depth". *)
Record RenderOutput : Type := {
  out_render : Image;
  viewspace_points : seq vec3;
  visibility_filter : bitseq;
  radii : seq Z;
  depth : Depth
}.

(** [cams_pc], the marker descriptor of [render_no_train]. *)
Record CamsPC : Type := {
  show_cameras : bool;
  show_scene : bool;
  xyzs : seq vec3;
  qs : seq quat;
  scale : vec3
}.

(** The six per-primitive arrays [render_no_train] filters and
    concatenates together (its local variables of these names). *)
Record PrimitiveSet : Type := {
  ps_means3D : seq vec3;
  ps_means2D : seq vec3;
  ps_shs : SHs;
  ps_opacity : seq F;
  ps_scales : seq vec3;
  ps_rotations : seq quat
}.

(** The calls to collaborators, with their arguments. *)
Inductive event : Type :=
| RetainGrad of seq vec3
| Deformation of seq vec3 & option (seq vec3) & option (seq quat) & seq F & SHs & seq F
| EvalSH of nat & seq sh_view_row & seq vec3
| Rasterize of RasterSettings & RasterArgs.

Definition is_retain_grad (e : event) : bool :=
  if e is RetainGrad _ then true else false.
Definition is_deformation (e : event) : bool :=
  if e is Deformation _ _ _ _ _ _ then true else false.
Definition is_eval_sh (e : event) : bool :=
  if e is EvalSH _ _ _ then true else false.
Definition is_rasterize (e : event) : bool :=
  if e is Rasterize _ _ then true else false.

(** The arguments of the rasterizer calls of a trace, in order. *)
Definition rasterized (t : seq event) : seq RasterArgs :=
  pmap (fun e => if e is Rasterize _ a then Some a else None) t.

(** The collaborators outside this package. *)
Variable retain_grad : seq vec3 -> option string.   (* [Some msg]: it raised *)
Variable eval_sh : nat -> seq sh_view_row -> seq vec3 -> string + seq vec3.
Variable rasterizer :
  RasterSettings -> RasterArgs -> string + (Image * seq Z * Depth).

Local Notation M := (M event).

Definition call_retain_grad (t : seq vec3) : M unit :=
  call (RetainGrad t) (if retain_grad t is Some msg then inl msg else inr tt).

Definition call_deformation (pc : GaussianModel) m s r o c t :=
  call (Deformation m s r o c t) (_deformation pc m s r o c t).

Definition call_eval_sh (deg : nat) (v : seq sh_view_row) (dirs : seq vec3) : M (seq vec3) :=
  call (EvalSH deg v dirs) (eval_sh deg v dirs).

Definition call_rasterizer (st : RasterSettings) (a : RasterArgs) :=
  call (Rasterize st a) (rasterizer st a).

(* ===================================================================== *)
(** ** The three functions *)
(* ===================================================================== *)

(** The stage block, the same in [render] (lines 77-89), [render_no_train]
    (192-200) and [deform_gs] (313-321). *)
Definition deformation_stage (pc : GaussianModel) (stage : string)
    (means3D : seq vec3) (scales : option (seq vec3)) (rotations : option (seq quat))
    (opacity : seq F) (shs : SHs) (time : seq F)
  : M (seq vec3 * option (seq vec3) * option (seq quat) * seq F * SHs) :=
  if str_in "coarse" stage then
    ret (means3D, scales, rotations, opacity, shs)
  else if str_in "fine" stage then
    call_deformation pc means3D scales rotations opacity shs time
  else raise NotImplementedError.

(** [GaussianRasterizationSettings(...)] built from a camera object. *)
Definition settings_of (c : Camera) (pc : GaussianModel) (pipe : PipelineParams)
    (bg_color : seq F) (scaling_modifier : F) : RasterSettings :=
  {| rs_image_height := image_height c;
     rs_image_width := image_width c;
     rs_tanfovx := ftan (fmul (FoVx c) fhalf);
     rs_tanfovy := ftan (fmul (FoVy c) fhalf);
     rs_bg := bg_color;
     rs_scale_modifier := scaling_modifier;
     rs_viewmatrix := world_view_transform c;
     rs_projmatrix := full_proj_transform c;
     rs_sh_degree := active_sh_degree pc;
     rs_campos := camera_center c;
     rs_prefiltered := false;
     rs_debug := debug pipe |}.

(** Lines 37-57 of [render]: the settings and the time column.  A camera
    object has attributes and no subscript, a dict the converse. *)
Definition raster_setup (viewpoint_camera : Viewpoint) (pc : GaussianModel)
    (pipe : PipelineParams) (bg_color : seq F) (scaling_modifier : F)
    (cam_type : option string) (means3D : seq vec3) : M (RasterSettings * seq F) :=
  if py_neq_str cam_type "PanopticSports" then
    match viewpoint_camera with
    | CameraObject c =>
        ret (settings_of c pc pipe bg_color scaling_modifier,
             nseq (size means3D) (time c))
    | CameraDict _ _ => raise AttributeError
    end
  else
    match viewpoint_camera with
    | CameraDict st t => ret (st, nseq (size means3D) t)
    | CameraObject _ => raise TypeError
    end.

(** [viewpoint_camera.camera_center]: a dict has no such attribute. *)
Definition get_camera_center (v : Viewpoint) : M vec3 :=
  match v with
  | CameraObject c => ret (camera_center c)
  | CameraDict _ _ => raise AttributeError
  end.

(** Lines 101-113 of [render]: the colours handed to the rasterizer. *)
Definition resolve_color (viewpoint_camera : Viewpoint) (pc : GaussianModel)
    (pipe : PipelineParams) (override_color : option (seq vec3))
  : M (option (seq vec3)) :=
  match override_color with
  | None =>
      if convert_SHs_python pipe then
        let* shs_view :=
          transpose_view (get_features pc) ((max_sh_degree pc + 1) ^ 2) in
        let* center := get_camera_center viewpoint_camera in
        let* dir_pp :=
          sub_rows (get_xyz pc) (nseq (size (coeffs (get_features pc))) center) in
        let dir_pp_normalized := normalize_rows dir_pp in
        let* sh2rgb :=
          call_eval_sh (active_sh_degree pc) shs_view dir_pp_normalized in
        ret (Some [seq map3 (fun x => clamp_min (fadd x fhalf) fzero) c | c <- sh2rgb])
      else ret None
  | Some c => ret (Some c)
  end.

Definition render (viewpoint_camera : Viewpoint) (pc : GaussianModel)
    (pipe : PipelineParams) (bg_color : seq F) (scaling_modifier : F)
    (override_color : option (seq vec3)) (stage : string)
    (cam_type : option string) : M RenderOutput :=
  let screenspace_points := add_scalar3 (zeros_like3 (get_xyz pc)) fzero in
  let* _ := try_except_pass (call_retain_grad screenspace_points) in
  let means3D := get_xyz pc in
  let* (raster_settings, time) :=
    raster_setup viewpoint_camera pc pipe bg_color scaling_modifier cam_type means3D in
  let means2D := screenspace_points in
  let opacity := _opacity pc in
  let shs := get_features pc in
  let: (scales, rotations, cov3D_precomp) :=
    if compute_cov3D_python pipe
    then (None, None, Some (get_covariance pc scaling_modifier))
    else (Some (_scaling pc), Some (_rotation pc), None) in
  let* (means3D_final, scales_final, rotations_final, opacity_final, shs_final) :=
    deformation_stage pc stage means3D scales rotations opacity shs time in
  let* scales_final := activate (scaling_activation pc) scales_final in
  let* rotations_final := activate (rotation_activation pc) rotations_final in
  let opacity := opacity_activation pc opacity_final in
  let* colors_precomp := resolve_color viewpoint_camera pc pipe override_color in
  let* (rendered_image, radii, depth) :=
    call_rasterizer raster_settings
      {| means3D := means3D_final;
         means2D := means2D;
         shs := shs_final;
         colors_precomp := colors_precomp;
         opacities := opacity;
         scales := Some scales_final;
         rotations := Some rotations_final;
         cov3D_precomp := cov3D_precomp |} in
  ret {| out_render := rendered_image;
         viewspace_points := screenspace_points;
         visibility_filter := [seq (0 <? r)%Z | r <- radii];
         radii := radii;
         depth := depth |}.

(** The spatial filter of [render_no_train] (lines 212-221): one mask,
    computed from the final positions, indexes the six arrays. *)
Definition spatial_filter (s : PrimitiveSet) (show_radius : F) : M PrimitiveSet :=
  let distances := norm_dim1 (ps_means3D s) in
  let mask := [seq flt d show_radius | d <- distances] in
  let* means3D_final := index_mask (ps_means3D s) mask in
  let* means2D := index_mask (ps_means2D s) mask in
  let* shs_final := index_mask_shs (ps_shs s) mask in
  let* opacity := index_mask (ps_opacity s) mask in
  let* scales_final := index_mask (ps_scales s) mask in
  let* rotations_final := index_mask (ps_rotations s) mask in
  ret {| ps_means3D := means3D_final;
         ps_means2D := means2D;
         ps_shs := shs_final;
         ps_opacity := opacity;
         ps_scales := scales_final;
         ps_rotations := rotations_final |}.

(** The marker primitives built from [cams_pc] (lines 228-245); [c] is
    [shs_final.shape[1]] of the scene. *)
Definition add_columns (t : seq vec3) (sc : vec3) : seq vec3 :=
  let t := [seq (fadd v.1.1 sc.1.1, v.1.2, v.2) | v <- t] in
  let t := [seq (v.1.1, fadd v.1.2 sc.1.2, v.2) | v <- t] in
  [seq (v.1.1, v.1.2, fadd v.2 sc.2) | v <- t].

Definition marker_set (cp : CamsPC) (c : nat) : PrimitiveSet :=
  let xyzs := add_scalar3 (xyzs cp) fzero in
  let rotations_final_ := add_scalar4 (qs cp) fzero in
  let shs_final_ :=
    mkSHs c [seq nseq c (map3 (fun x => fadd x fzero) v) | v <- zeros_like3 xyzs] in
  let opacity_ := [seq fadd fone fzero | _ <- xyzs] in
  let scaling := add_scalar3 (zeros_like3 xyzs) fzero in
  let scaling := add_columns scaling (scale cp) in
  let scales_final_ := scaling in
  let means2D_ := add_scalar3 (zeros_like3 xyzs) fzero in
  let means3D_final_ := xyzs in
  {| ps_means3D := means3D_final_;
     ps_means2D := means2D_;
     ps_shs := shs_final_;
     ps_opacity := opacity_;
     ps_scales := scales_final_;
     ps_rotations := rotations_final_ |}.

(** The composition of [render_no_train] (lines 225-261). *)
Definition compose (cams_pc : option CamsPC) (s : PrimitiveSet) : M PrimitiveSet :=
  match cams_pc with
  | Some cp =>
      if show_cameras cp then
        let m := marker_set cp (shape1 (ps_shs s)) in
        if show_scene cp then
          let means2D := ps_means2D s ++ ps_means2D m in
          let means3D_final := ps_means3D s ++ ps_means3D m in
          let scales_final := ps_scales s ++ ps_scales m in
          let opacity := ps_opacity s ++ ps_opacity m in
          let* shs_final := cat_shs (ps_shs s) (ps_shs m) in
          let rotations_final := ps_rotations s ++ ps_rotations m in
          ret {| ps_means3D := means3D_final;
                 ps_means2D := means2D;
                 ps_shs := shs_final;
                 ps_opacity := opacity;
                 ps_scales := scales_final;
                 ps_rotations := rotations_final |}
        else ret m
      else ret s
  | None => ret s
  end.

Definition render_no_train (viewpoint_camera : Camera) (pc : GaussianModel)
    (pipe : PipelineParams) (bg_color : seq F) (scaling_modifier : F)
    (stage : string) (cam_type : option string) (cams_pc : option CamsPC)
    (show_radius : F) : M RenderOutput :=
  let screenspace_points := add_scalar3 (zeros_like3 (get_xyz pc)) fzero in
  let means3D := get_xyz pc in
  let raster_settings :=
    settings_of viewpoint_camera pc pipe bg_color scaling_modifier in
  let time := nseq (size means3D) (time viewpoint_camera) in
  let means2D := screenspace_points in
  let opacity := _opacity pc in
  let shs := get_features pc in
  let scales := Some (_scaling pc) in
  let rotations := Some (_rotation pc) in
  let* (means3D_final, scales_final, rotations_final, opacity_final, shs_final) :=
    deformation_stage pc stage means3D scales rotations opacity shs time in
  let* scales_final := activate (scaling_activation pc) scales_final in
  let* rotations_final := activate (rotation_activation pc) rotations_final in
  let opacity := opacity_activation pc opacity_final in
  let cov3D_precomp := None in
  let colors_precomp := None in
  let* filtered :=
    spatial_filter
      {| ps_means3D := means3D_final;
         ps_means2D := means2D;
         ps_shs := shs_final;
         ps_opacity := opacity;
         ps_scales := scales_final;
         ps_rotations := rotations_final |} show_radius in
  let* final := compose cams_pc filtered in
  let* (rendered_image, radii, depth) :=
    call_rasterizer raster_settings
      {| means3D := ps_means3D final;
         means2D := ps_means2D final;
         shs := ps_shs final;
         colors_precomp := colors_precomp;
         opacities := ps_opacity final;
         scales := Some (ps_scales final);
         rotations := Some (ps_rotations final);
         cov3D_precomp := cov3D_precomp |} in
  ret {| out_render := rendered_image;
         viewspace_points := screenspace_points;
         visibility_filter := [seq (0 <? r)%Z | r <- radii];
         radii := radii;
         depth := depth |}.

Definition deform_gs (time : F) (pc : GaussianModel) (stage : string) : M (seq vec3) :=
  let screenspace_points := add_scalar3 (zeros_like3 (get_xyz pc)) fzero in
  let* _ := try_except_pass (call_retain_grad screenspace_points) in
  let means3D := get_xyz pc in
  let time := nseq (size means3D) time in
  let means2D := screenspace_points in
  let opacity := _opacity pc in
  let shs := get_features pc in
  let scales := Some (_scaling pc) in
  let rotations := Some (_rotation pc) in
  let* (means3D_final, scales_final, rotations_final, opacity_final, shs_final) :=
    deformation_stage pc stage means3D scales rotations opacity shs time in
  ret means3D_final.

(* ===================================================================== *)
(** ** Notions the statements use *)
(* ===================================================================== *)

(** Row [i] of a primitive set: position, 2D anchor, coefficients,
    opacity, scale and rotation of primitive [i]. *)
Definition primitive : Type := (vec3 * vec3 * seq vec3 * F * vec3 * quat)%type.

Definition rows (s : PrimitiveSet) : seq primitive :=
  zip (zip (zip (zip (zip (ps_means3D s) (ps_means2D s)) (coeffs (ps_shs s)))
                (ps_opacity s)) (ps_scales s)) (ps_rotations s).

Definition position_of (p : primitive) : vec3 := p.1.1.1.1.1.

(** All six arrays have [n] rows. *)
Definition well_shaped (n : nat) (s : PrimitiveSet) : bool :=
  [&& size (ps_means3D s) == n, size (ps_means2D s) == n,
      size (coeffs (ps_shs s)) == n, size (ps_opacity s) == n,
      size (ps_scales s) == n & size (ps_rotations s) == n].

(** The Euclidean norm of [v] is strictly less than [r]. *)
Definition within_radius (r : F) (v : vec3) : bool := flt (norm3 v) r.

(** No component of a colour is negative. *)
Definition nonnegative3 (c : vec3) : bool :=
  [&& ~~ flt c.1.1 fzero, ~~ flt c.1.2 fzero & ~~ flt c.2 fzero].

(** [viewpoint_camera] has the shape [cam_type] announces. *)
Definition camera_fits (cam_type : option string) (v : Viewpoint) : bool :=
  if py_neq_str cam_type "PanopticSports"
  then (if v is CameraObject _ then true else false)
  else (if v is CameraDict _ _ then true else false).

(** The colour the spherical harmonics give for primitives at [positions]
    with coefficients [features], seen from [center]: the computation of
    lines 104-108 with the positions and coefficients as parameters. *)
Definition sh_color_at (pc : GaussianModel) (center : vec3)
    (positions : seq vec3) (features : SHs) : M (seq vec3) :=
  let* shs_view := transpose_view features ((max_sh_degree pc + 1) ^ 2) in
  let* dir_pp := sub_rows positions (nseq (size (coeffs features)) center) in
  let* sh2rgb :=
    call_eval_sh (active_sh_degree pc) shs_view (normalize_rows dir_pp) in
  ret [seq map3 (fun x => clamp_min (fadd x fhalf) fzero) c | c <- sh2rgb].

(** The colours made from the result of [eval_sh] (line 108). *)
Definition sh_clamp (sh2rgb : seq vec3) : seq vec3 :=
  [seq map3 (fun x => clamp_min (fadd x fhalf) fzero) c | c <- sh2rgb].

(** The mask of the filter: true where the position is within the radius. *)
Definition radius_mask (r : F) (positions : seq vec3) : bitseq :=
  [seq within_radius r p | p <- positions].

(** The number of rows [compose] gives for [k] scene rows. *)
Definition composed_size (cams : option CamsPC) (k : nat) : nat :=
  match cams with
  | Some cp =>
      if show_cameras cp then
        if show_scene cp then k + size (xyzs cp) else size (xyzs cp)
      else k
  | None => k
  end.

(** The zero tensor made at the start of the three functions. *)
Definition anchor_of (pc : GaussianModel) : seq vec3 :=
  add_scalar3 (zeros_like3 (get_xyz pc)) fzero.

(** What the rasterizer's answer becomes: the dict returned, or the
    rasterizer's own failure. *)
Definition packaged (anchor : seq vec3)
    (res : string + (Image * seq Z * Depth)) : exn + RenderOutput :=
  match res with
  | inl msg => inl (ExternalError msg)
  | inr (img, rd, dp) =>
      inr {| out_render := img;
             viewspace_points := anchor;
             visibility_filter := [seq (0 <? x)%Z | x <- rd];
             radii := rd;
             depth := dp |}
  end.

(** The keyword arguments [render_no_train] makes of its six arrays. *)
Definition preview_args (ps : PrimitiveSet) : RasterArgs :=
  {| means3D := ps_means3D ps;
     means2D := ps_means2D ps;
     shs := ps_shs ps;
     colors_precomp := None;
     opacities := ps_opacity ps;
     scales := Some (ps_scales ps);
     rotations := Some (ps_rotations ps);
     cov3D_precomp := None |}.

(** The six arrays of the model itself, activated, with the zero anchor. *)
Definition model_set (pc : GaussianModel) : PrimitiveSet :=
  {| ps_means3D := get_xyz pc;
     ps_means2D := anchor_of pc;
     ps_shs := get_features pc;
     ps_opacity := opacity_activation pc (_opacity pc);
     ps_scales := scaling_activation pc (_scaling pc);
     ps_rotations := rotation_activation pc (_rotation pc) |}.

End Renderer.

(* ===================================================================== *)
(** ** Rational scalars, and a small scene to run the functions on *)
(* ===================================================================== *)

(** Exact rational arithmetic; the square root is rounded down to the
    denominator's grid, [math.tan] is its third-order polynomial. *)
Definition Qltb (x y : Q) : bool :=
  (Qnum x * Zpos (Qden y) <? Qnum y * Zpos (Qden x))%Z.

Definition Qsqrt_floor (q : Q) : Q :=
  (Z.sqrt (Qnum q * Zpos (Qden q)) # Qden q)%Q.

Definition Qtan3 (x : Q) : Q := (x + x * x * x / (3 # 1))%Q.

#[export] Instance Q_scalar : Scalar Q := {|
  fzero := 0%Q;
  fone := 1%Q;
  fhalf := (1 # 2)%Q;
  fadd := Qplus;
  fsub := Qminus;
  fmul := Qmult;
  fdiv := Qdiv;
  flt := Qltb;
  fsqrt := Qsqrt_floor;
  ftan := Qtan3
|}.

Module Scene.

Definition z (n : Z) : Q := (n # 1)%Q.

(** The real spherical harmonics of degree 0 and 1, per colour channel. *)
Definition C0 : Q := (28209479177387814 # 100000000000000000)%Q.
Definition C1 : Q := (4886025119029199 # 10000000000000000)%Q.

Definition sh_channel (deg : nat) (k : seq Q) (d : @vec3 Q) : Q :=
  let: (x, y, z) := d in
  let k (i : nat) : Q := nth 0%Q k i in
  let r := (C0 * k 0%nat)%Q in
  if deg is O then r
  else (r - C1 * y * k 1%nat + C1 * z * k 2%nat - C1 * x * k 3%nat)%Q.

Definition eval_sh (deg : nat) (v : seq (@sh_view_row Q)) (dirs : seq (@vec3 Q))
  : string + seq (@vec3 Q) :=
  if deg <= 1 then
    inr [seq (sh_channel deg p.1.1.1 p.2, sh_channel deg p.1.1.2 p.2,
              sh_channel deg p.1.2 p.2) | p <- zip v dirs]
  else inl "degree above 1"%string.

(** Autograd that refuses to retain gradients. *)
Definition no_grad (_ : seq (@vec3 Q)) : option string := Some "no grad"%string.

(** A rasterizer that draws nothing and reports radius 1 for every
    primitive it is given. *)
Definition rasterizer (st : @RasterSettings Q) (a : @RasterArgs Q)
  : string + (unit * seq Z * unit) :=
  inr (tt, nseq (size (means3D a)) 1%Z, tt).

(** A deformation that turns every position about the diagonal and leaves
    the other attributes as they are. *)
Definition turn (m : seq (@vec3 Q)) (s : option (seq (@vec3 Q)))
    (r : option (seq (@quat Q))) (o : seq Q) (c : @SHs Q) (t : seq Q)
  : string + (seq (@vec3 Q) * option (seq (@vec3 Q)) * option (seq (@quat Q))
              * seq Q * @SHs Q) :=
  inr ([seq (v.1.2, v.2, v.1.1) | v <- m], s, r, o, c).

(** A deformation that, besides turning the positions, puts unit scales
    and rotations where it is given none. *)
Definition turn_and_fill (m : seq (@vec3 Q)) (s : option (seq (@vec3 Q)))
    (r : option (seq (@quat Q))) (o : seq Q) (c : @SHs Q) (t : seq Q)
  : string + (seq (@vec3 Q) * option (seq (@vec3 Q)) * option (seq (@quat Q))
              * seq Q * @SHs Q) :=
  inr ([seq (v.1.2, v.2, v.1.1) | v <- m],
       Some (odflt [seq (z 0, z 0, z 0) | _ <- m] s),
       Some (odflt [seq (z 1, z 0, z 0, z 0) | _ <- m] r), o, c).

(** One primitive at (3, 4, 0), with four coefficients per channel. *)
Definition pc : @GaussianModel Q := {|
  get_xyz := [:: (z 3, z 4, z 0)];
  _opacity := [:: z 0];
  get_features :=
    mkSHs 4 [:: [:: (z 1, z 0, z 0); (z 1, z 1, z 0); (z 0, z 1, z 0); (z 0, z 0, z 1)]];
  _scaling := [:: (z 0, z 0, z 0)];
  _rotation := [:: (z 1, z 0, z 0, z 0)];
  _deformation_table := [:: true];
  active_sh_degree := 1;
  max_sh_degree := 1;
  get_covariance := fun _ => [:: [:: z 1; z 0; z 0; z 1; z 0; z 1]];
  _deformation := turn;
  scaling_activation := map (map3 (fun x : Q => 1 + x + x * x / (2 # 1))%Q);
  rotation_activation := id;
  opacity_activation := map (fun x : Q => (1 # 2) + x / (4 # 1))%Q
|}.

(** The same model with the deformation that fills in. *)
Definition pc_fill : @GaussianModel Q := {|
  get_xyz := get_xyz pc;
  _opacity := _opacity pc;
  get_features := get_features pc;
  _scaling := _scaling pc;
  _rotation := _rotation pc;
  _deformation_table := _deformation_table pc;
  active_sh_degree := active_sh_degree pc;
  max_sh_degree := max_sh_degree pc;
  get_covariance := get_covariance pc;
  _deformation := turn_and_fill;
  scaling_activation := scaling_activation pc;
  rotation_activation := rotation_activation pc;
  opacity_activation := opacity_activation pc
|}.

Definition camera : @Camera Q := {|
  FoVx := z 1;
  FoVy := z 1;
  image_height := 2;
  image_width := 2;
  world_view_transform := [::];
  full_proj_transform := [::];
  camera_center := (z 0, z 0, z 0);
  time := z 0
|}.

Definition pipe (cov conv : bool) : PipelineParams :=
  {| debug := false; compute_cov3D_python := cov; convert_SHs_python := conv |}.

Definition bg : seq Q := [:: z 0; z 0; z 0].

(** Training render, with failing gradient retention. *)
Definition run (cov conv : bool) (override : option (seq (@vec3 Q)))
    (stage : string) :=
  render no_grad eval_sh rasterizer (CameraObject camera) pc (pipe cov conv)
    bg (z 1) override stage None.

(** One marker at the origin. *)
Definition marker (cams scene : bool) : @CamsPC Q := {|
  show_cameras := cams;
  show_scene := scene;
  xyzs := [:: (z 0, z 0, z 0)];
  qs := [:: (z 1, z 0, z 0, z 0)];
  scale := (z 1, z 2, z 3)
|}.

(** Preview render. *)
Definition preview (stage : string) (cams_pc : option (@CamsPC Q)) (radius : Q) :=
  render_no_train rasterizer camera pc (pipe false false) bg (z 1) stage None
    cams_pc radius.

(** A hundred scene primitives and eight markers. *)
Definition scene100 : @PrimitiveSet Q := {|
  ps_means3D := nseq 100 (z 1, z 0, z 0);
  ps_means2D := nseq 100 (z 0, z 0, z 0);
  ps_shs := mkSHs 1 (nseq 100 [:: (z 1, z 1, z 1)]);
  ps_opacity := nseq 100 (1 # 2)%Q;
  ps_scales := nseq 100 (z 1, z 1, z 1);
  ps_rotations := nseq 100 (z 1, z 0, z 0, z 0)
|}.

Definition markers8 (cams scene : bool) : @CamsPC Q := {|
  show_cameras := cams;
  show_scene := scene;
  xyzs := nseq 8 (z 0, z 0, z 2);
  qs := nseq 8 (z 1, z 0, z 0, z 0);
  scale := (z 1, z 2, z 3)
|}.

(** Three primitives at distance 1, 2 and 5 from the origin. *)
Definition three : @PrimitiveSet Q := {|
  ps_means3D := [:: (z 1, z 0, z 0); (z 0, z 2, z 0); (z 3, z 4, z 0)];
  ps_means2D := nseq 3 (z 0, z 0, z 0);
  ps_shs := mkSHs 1 [:: [:: (z 1, z 1, z 1)]; [:: (z 2, z 2, z 2)]; [:: (z 3, z 3, z 3)]];
  ps_opacity := [:: (1 # 10)%Q; (2 # 10)%Q; (3 # 10)%Q];
  ps_scales := [:: (z 1, z 1, z 1); (z 2, z 2, z 2); (z 3, z 3, z 3)];
  ps_rotations := [:: (z 1, z 0, z 0, z 0); (z 0, z 1, z 0, z 0); (z 0, z 0, z 1, z 0)]
|}.


Definition doubling (m : seq (@vec3 Q)) (s : option (seq (@vec3 Q)))
    (r : option (seq (@quat Q))) (o : seq Q) (c : @SHs Q) (t : seq Q)
  : string + (seq (@vec3 Q) * option (seq (@vec3 Q)) * option (seq (@quat Q))
              * seq Q * @SHs Q) :=
  inr (m ++ m, s, r, o, c).

(** The model above with another deformation. *)
Definition pc_with (d : seq (@vec3 Q) -> option (seq (@vec3 Q)) ->
                        option (seq (@quat Q)) -> seq Q -> @SHs Q -> seq Q ->
                        string + (seq (@vec3 Q) * option (seq (@vec3 Q)) *
                                  option (seq (@quat Q)) * seq Q * @SHs Q))
  : @GaussianModel Q := {|
  get_xyz := get_xyz pc;
  _opacity := _opacity pc;
  get_features := get_features pc;
  _scaling := _scaling pc;
  _rotation := _rotation pc;
  _deformation_table := _deformation_table pc;
  active_sh_degree := active_sh_degree pc;
  max_sh_degree := max_sh_degree pc;
  get_covariance := get_covariance pc;
  _deformation := d;
  scaling_activation := scaling_activation pc;
  rotation_activation := rotation_activation pc;
  opacity_activation := opacity_activation pc
|}.

(** A dict camera, with settings of its own and time 7. *)
Definition dict_settings : @RasterSettings Q :=
  settings_of camera pc (pipe true true) [:: z 1; z 1; z 1] (z 5).

Definition dict_camera : @Viewpoint Q := CameraDict dict_settings (z 7).

(** The three primitives with one opacity missing. *)
Definition ragged : @PrimitiveSet Q := {|
  ps_means3D := ps_means3D three;
  ps_means2D := ps_means2D three;
  ps_shs := ps_shs three;
  ps_opacity := [:: (1 # 10)%Q; (2 # 10)%Q];
  ps_scales := ps_scales three;
  ps_rotations := ps_rotations three
|}.

End Scene.

(* ===================================================================== *)
(** ** Facts about computations *)
(* ===================================================================== *)

Section MonadFacts.

Variable Ev : Type.
Implicit Types (e : Ev).

Lemma trace_bind A B (m : M Ev A) (k : A -> M Ev B) :
  trace (bind m k) = trace m ++ (if outcome m is inr a then trace (k a) else [::]).
Proof.
case: m => t [x|a] /=; first by rewrite cats0.
by rewrite /trace /=; case: (k a).
Qed.

Lemma outcome_bind A B (m : M Ev A) (k : A -> M Ev B) :
  outcome (bind m k) =
  match outcome m with inr a => outcome (k a) | inl x => inl x end.
Proof. by case: m => t [x|a] //=; rewrite /outcome /=; case: (k a). Qed.

Lemma bind_ret A B (a : A) (k : A -> M Ev B) : bind (ret a) k = k a.
Proof. by rewrite /bind /ret; case: (k a). Qed.

Lemma bind_raise A B (x : exn) (k : A -> M Ev B) : bind (raise x) k = raise x.
Proof. by []. Qed.

Lemma In_cat e (s t : seq Ev) : List.In e (s ++ t) <-> List.In e s \/ List.In e t.
Proof. exact: List.in_app_iff. Qed.

(** A call seen in [bind m k] was made by [m], or by [k] on [m]'s value. *)
Lemma In_trace_bind A B (m : M Ev A) (k : A -> M Ev B) e :
  List.In e (trace (bind m k)) ->
  List.In e (trace m) \/
  exists2 a, m = (trace m, inr a) & List.In e (trace (k a)).
Proof.
rewrite trace_bind => /In_cat [|]; first by left.
case: m => t [x|a] //= Hin; right; by exists a.
Qed.

End MonadFacts.

Ltac in_bind :=
  let H := fresh "Hin" in move=> H; case: (In_trace_bind H) => {H}.

Lemma hasPn_In Ev (p : pred Ev) (t : seq Ev) :
  (forall e, List.In e t -> ~~ p e) -> ~~ has p t.
Proof.
elim: t => [|x t IH] //= H; rewrite negb_or (H x (or_introl erefl)) /=.
by apply: IH => e He; apply: H; right.
Qed.

(** Rows selected by one mask from two arrays are the selected rows of
    the zipped array. *)
Lemma zip_mask S T (m : bitseq) (s : seq S) (t : seq T) :
  zip (mask m s) (mask m t) = mask m (zip s t).
Proof.
elim: m s t => [|b m IH] [|x s] [|y t] //=.
- by case: b => //=; case: (mask m t).
- by case: b => //=; case: (mask m s).
by case: b; rewrite /= IH.
Qed.

(* ===================================================================== *)
(** ** The rational scalars obey the laws *)
(* ===================================================================== *)

#[export] Instance Q_laws : ScalarLaws Q.
Proof.
split.
- case=> n d; rewrite /fadd /fzero /= /Qplus /=.
  by rewrite Z.mul_1_r Z.add_0_r Pos.mul_1_r.
- by case=> n d; rewrite /fadd /fzero /= /Qplus /= Z.mul_1_r.
- by move=> x; rewrite /flt /= /Qltb Z.ltb_irrefl.
Qed.

(* ===================================================================== *)
(** ** The renderer *)
(* ===================================================================== *)

Section RendererFacts.

Context {F : Type} {num : Scalar F}.
Variables Image Depth : Type.
Variable retain_grad : seq (@vec3 F) -> option string.
Variable eval_sh : nat -> seq (@sh_view_row F) -> seq (@vec3 F) -> string + seq (@vec3 F).
Variable rasterizer :
  @RasterSettings F -> @RasterArgs F -> string + (Image * seq Z * Depth).

Local Notation M := (M (@event F)).
Local Notation render := (render retain_grad eval_sh rasterizer).
Local Notation render_no_train := (render_no_train rasterizer).
Local Notation deform_gs := (deform_gs retain_grad).
Local Notation resolve_color := (resolve_color eval_sh).
Local Notation sh_color_at := (sh_color_at eval_sh).

Context {laws : ScalarLaws F}.

Implicit Types (pc : @GaussianModel F) (pipe : PipelineParams) (stage : string).
Implicit Types (ps : @PrimitiveSet F) (cp : @CamsPC F).

(** *** The stage block *)

Lemma stage_coarse pc stage m s r o c t :
  str_in "coarse" stage ->
  deformation_stage pc stage m s r o c t = ret (m, s, r, o, c).
Proof. by rewrite /deformation_stage => ->. Qed.

Lemma stage_unsupported pc stage m s r o c t :
  ~~ str_in "coarse" stage -> ~~ str_in "fine" stage ->
  deformation_stage pc stage m s r o c t = raise NotImplementedError.
Proof. by rewrite /deformation_stage => /negbTE -> /negbTE ->. Qed.

Lemma stage_fine pc stage m s r o c t :
  ~~ str_in "coarse" stage -> str_in "fine" stage ->
  deformation_stage pc stage m s r o c t =
  call (Deformation m s r o c t) (_deformation pc m s r o c t).
Proof. by rewrite /deformation_stage => /negbTE -> ->. Qed.

Lemma stage_trace pc stage m s r o c t :
  trace (deformation_stage pc stage m s r o c t) =
  if ~~ str_in "coarse" stage && str_in "fine" stage
  then [:: Deformation m s r o c t] else [::].
Proof. by rewrite /deformation_stage; do 2 case: (str_in _ _). Qed.

(** *** Steps that call no collaborator *)

Lemma setup_trace vc pc pipe bg sm ct m :
  trace (raster_setup vc pc pipe bg sm ct m) = [::].
Proof. by rewrite /raster_setup; case: (py_neq_str _ _); case: vc. Qed.

Lemma activate_trace T (f : T -> T) v : trace (activate (Ev:=@event F) f v) = [::].
Proof. by case: v. Qed.

Lemma index_mask_trace T (t : seq T) m : trace (index_mask (Ev:=@event F) t m) = [::].
Proof. by rewrite /index_mask; case: ifP. Qed.

Lemma index_mask_shs_trace (t : @SHs F) m : trace (index_mask_shs (Ev:=@event F) t m) = [::].
Proof. by rewrite /index_mask_shs; case: ifP. Qed.

Lemma pure_bind A B (m : M A) (k : A -> M B) :
  trace m = [::] -> (forall a, trace (k a) = [::]) -> trace (bind m k) = [::].
Proof. by move=> Hm Hk; rewrite trace_bind Hm /=; case: (outcome m). Qed.

Lemma pure_cases A (m : M A) :
  trace m = [::] -> (exists x, m = raise x) \/ (exists a, m = ret a).
Proof. by case: m => t [x|a] /= ->; [left; exists x | right; exists a]. Qed.

Lemma spatial_filter_trace s r : trace (spatial_filter s r) = [::].
Proof.
rewrite /spatial_filter.
do ![apply: pure_bind; [by rewrite ?index_mask_trace ?index_mask_shs_trace | move=> ?]].
by [].
Qed.

Lemma compose_trace cams s : trace (compose cams s) = [::].
Proof.
rewrite /compose; case: cams => [cp|] //; case: (show_cameras cp) => //.
by case: (show_scene cp) => //; rewrite /cat_shs; case: ifP.
Qed.

Lemma sub_rows_trace (a b : seq (@vec3 F)) : trace (sub_rows (Ev:=@event F) a b) = [::].
Proof.
rewrite /sub_rows; case: ifP => _ //.
by case: b => [|v [|? ?]]; case: a => [|u [|? ?]].
Qed.

Lemma transpose_view_trace (t : @SHs F) k : trace (transpose_view (Ev:=@event F) t k) = [::].
Proof. by rewrite /transpose_view; case: ifP. Qed.

Lemma camera_center_trace vc : trace (get_camera_center (F:=F) vc) = [::].
Proof. by case: vc. Qed.

Lemma resolve_color_trace vc pc pipe oc e :
  List.In e (trace (resolve_color vc pc pipe oc)) ->
  [/\ is_eval_sh e, oc = None & convert_SHs_python pipe].
Proof.
rewrite /resolve_color; case: oc => [c|] //; case: (convert_SHs_python pipe) => //.
in_bind; first by rewrite transpose_view_trace.
case=> v _; in_bind; first by rewrite camera_center_trace.
case=> ctr _; in_bind; first by rewrite sub_rows_trace.
case=> d _; in_bind; last by case=> x _ [].
by case=> // <-.
Qed.

Lemma stage_supported pc stage m s r o c t x :
  deformation_stage pc stage m s r o c t = (trace (deformation_stage pc stage m s r o c t), inr x) ->
  str_in "coarse" stage || str_in "fine" stage.
Proof. by rewrite /deformation_stage; do 2 case: (str_in _ _). Qed.

Lemma stage_trace_inv pc stage m s r o c t e :
  List.In e (trace (deformation_stage pc stage m s r o c t)) ->
  is_deformation e /\ ~~ str_in "coarse" stage && str_in "fine" stage.
Proof. by rewrite stage_trace; case: ifP => // _ [] // <-. Qed.

(** The calls [render] can make. *)
Lemma render_trace_inv vc pc pipe bg sm oc stage ct e :
  List.In e (trace (render vc pc pipe bg sm oc stage ct)) ->
  [\/ is_retain_grad e,
      is_deformation e /\ ~~ str_in "coarse" stage && str_in "fine" stage,
      [/\ is_eval_sh e, oc = None & convert_SHs_python pipe]
    | is_rasterize e /\ (str_in "coarse" stage || str_in "fine" stage)].
Proof.
rewrite /render; in_bind; first by case=> // <-; constructor 1.
case=> _ _; in_bind; first by rewrite setup_trace.
case=> -[st' time] _.
case: (compute_cov3D_python pipe).
  all: in_bind; first by move/stage_trace_inv; constructor 2.
  all: case=> -[[[[m s] r] o] c] /stage_supported Hstage.
  all: in_bind; first by rewrite activate_trace.
  all: case=> sf _; in_bind; first by rewrite activate_trace.
  all: case=> rf _; in_bind; first by move/resolve_color_trace; constructor 3.
  all: case=> colors _; in_bind; last by case=> -[[img rd] dp] _ [].
  all: by case=> // <-; constructor 4.
Qed.

Lemma render_no_train_trace_inv cam pc pipe bg sm stage ct cams r e :
  List.In e (trace (render_no_train cam pc pipe bg sm stage ct cams r)) ->
  is_deformation e /\ ~~ str_in "coarse" stage && str_in "fine" stage \/
  is_rasterize e /\ (str_in "coarse" stage || str_in "fine" stage).
Proof.
rewrite /render_no_train; in_bind; first by move/stage_trace_inv; left.
case=> -[[[[m s] rt] o] c] /stage_supported Hstage.
in_bind; first by rewrite activate_trace.
case=> sf _; in_bind; first by rewrite activate_trace.
case=> rf _; in_bind; first by rewrite spatial_filter_trace.
case=> filtered _; in_bind; first by rewrite compose_trace.
case=> final _; in_bind; last by case=> -[[img rd] dp] _ [].
by case=> // <-; right.
Qed.

Lemma deform_gs_trace_inv t0 pc stage e :
  List.In e (trace (deform_gs t0 pc stage)) ->
  is_retain_grad e \/
  is_deformation e /\ ~~ str_in "coarse" stage && str_in "fine" stage.
Proof.
rewrite /deform_gs; in_bind; first by case=> // <-; left.
case=> _ _; in_bind; first by move/stage_trace_inv; right.
by case=> -[[[[m s] rt] o] c] _ [].
Qed.

Lemma render_rasterize_inv vc pc pipe bg sm oc stage ct st a :
  List.In (Rasterize st a) (trace (render vc pc pipe bg sm oc stage ct)) ->
  exists time m sr rr o c colors,
    [/\ raster_setup vc pc pipe bg sm ct (get_xyz pc) = ret (st, time),
        outcome (deformation_stage pc stage (get_xyz pc)
                   (if compute_cov3D_python pipe then None else Some (_scaling pc))
                   (if compute_cov3D_python pipe then None else Some (_rotation pc))
                   (_opacity pc) (get_features pc) time)
        = inr (m, Some sr, Some rr, o, c),
        outcome (resolve_color vc pc pipe oc) = inr colors
      & a = {| means3D := m;
               means2D := add_scalar3 (zeros_like3 (get_xyz pc)) fzero;
               shs := c;
               colors_precomp := colors;
               opacities := opacity_activation pc o;
               scales := Some (scaling_activation pc sr);
               rotations := Some (rotation_activation pc rr);
               cov3D_precomp :=
                 if compute_cov3D_python pipe
                 then Some (get_covariance pc sm) else None |} ].
Proof.
rewrite /render; in_bind; first by case=> //.
case=> _ _; in_bind; first by rewrite setup_trace.
case=> -[st' time]; rewrite setup_trace => Hsetup.
case: (compute_cov3D_python pipe).
  all: in_bind; first by rewrite stage_trace; case: ifP => _ // [].
  all: case=> -[[[[m s] r] o] c] Hstage; in_bind; first by rewrite activate_trace.
  all: case=> sf Hs; in_bind; first by rewrite activate_trace.
  all: case=> rf Hr; in_bind; first by case/resolve_color_trace.
  all: case=> colors Hc; in_bind; last by case=> -[[img rd] dp] _ [].
  all: case=> // -[<- <-].
  all: case: s Hs Hstage => // sr [<-] Hstage; case: r Hr Hstage => // rr [<-] Hstage.
  all: exists time, m, sr, rr, o, c, colors; split=> //.
  all: try by rewrite Hstage.
  all: by rewrite Hc.
Qed.

Lemma render_no_train_rasterize_inv cam pc pipe bg sm stage ct cams r st a :
  List.In (Rasterize st a)
    (trace (render_no_train cam pc pipe bg sm stage ct cams r)) ->
  exists m sr rr o c filtered final,
    [/\ outcome (deformation_stage pc stage (get_xyz pc) (Some (_scaling pc))
                   (Some (_rotation pc)) (_opacity pc) (get_features pc)
                   (nseq (size (get_xyz pc)) (time cam)))
        = inr (m, Some sr, Some rr, o, c),
        spatial_filter
          {| ps_means3D := m;
             ps_means2D := add_scalar3 (zeros_like3 (get_xyz pc)) fzero;
             ps_shs := c;
             ps_opacity := opacity_activation pc o;
             ps_scales := scaling_activation pc sr;
             ps_rotations := rotation_activation pc rr |} r = ret filtered,
        compose cams filtered = ret final,
        st = settings_of cam pc pipe bg sm
      & a = {| means3D := ps_means3D final;
               means2D := ps_means2D final;
               shs := ps_shs final;
               colors_precomp := None;
               opacities := ps_opacity final;
               scales := Some (ps_scales final);
               rotations := Some (ps_rotations final);
               cov3D_precomp := None |} ].
Proof.
rewrite /render_no_train; in_bind; first by rewrite stage_trace; case: ifP => _ // [].
case=> -[[[[m s] rt] o] c] Hstage; in_bind; first by rewrite activate_trace.
case=> sf Hs; in_bind; first by rewrite activate_trace.
case=> rf Hr; in_bind; first by rewrite spatial_filter_trace.
case=> filtered; rewrite spatial_filter_trace => Hf.
in_bind; first by rewrite compose_trace.
case=> final; rewrite compose_trace => Hfin.
in_bind; last by case=> -[[img rd] dp] _ [].
case=> // -[<- <-]; move: Hf.
case: s Hs Hstage => // sr [<-] Hstage; case: rt Hr Hstage => // rr [<-] Hstage Hf.
exists m, sr, rr, o, c, filtered, final; split=> //.
by rewrite Hstage.
Qed.


Lemma setup_fits vc pc pipe bg sm ct m :
  camera_fits ct vc ->
  exists st t, raster_setup vc pc pipe bg sm ct m = ret (st, t).
Proof.
rewrite /camera_fits /raster_setup; case: (py_neq_str _ _); case: vc => // *;
  by do 2 eexists.
Qed.

(** C1: with "coarse" in the stage string the stage block returns its
    five input arrays as they are and the deformation network is not
    called, in [render], [render_no_train] and [deform_gs]; what [render]
    hands to the rasterizer is the model's own positions and coefficients
    and the activations of its own opacities, scales and rotations, and
    what [render_no_train] filters and composes are those same arrays. *)
Theorem coarse_stage_is_identity vc cam pc pipe bg sm oc stage ct cams r t0
    m s rt o c t :
  str_in "coarse" stage ->
  [/\ deformation_stage pc stage m s rt o c t = ret (m, s, rt, o, c),
      ~~ has is_deformation (trace (render vc pc pipe bg sm oc stage ct)),
      ~~ has is_deformation
           (trace (render_no_train cam pc pipe bg sm stage ct cams r)),
      ~~ has is_deformation (trace (deform_gs t0 pc stage))
    & (forall st a,
         List.In (Rasterize st a) (trace (render vc pc pipe bg sm oc stage ct)) ->
         [/\ means3D a = get_xyz pc,
             shs a = get_features pc,
             opacities a = opacity_activation pc (_opacity pc),
             scales a = Some (scaling_activation pc (_scaling pc))
           & rotations a = Some (rotation_activation pc (_rotation pc))]) /\
      (forall st a,
         List.In (Rasterize st a)
           (trace (render_no_train cam pc pipe bg sm stage ct cams r)) ->
         exists filtered final,
           [/\ spatial_filter
                 {| ps_means3D := get_xyz pc;
                    ps_means2D := add_scalar3 (zeros_like3 (get_xyz pc)) fzero;
                    ps_shs := get_features pc;
                    ps_opacity := opacity_activation pc (_opacity pc);
                    ps_scales := scaling_activation pc (_scaling pc);
                    ps_rotations := rotation_activation pc (_rotation pc) |} r
               = ret filtered,
               compose cams filtered = ret final,
               means3D a = ps_means3D final
             & shs a = ps_shs final])].
Proof.
move=> Hc; split; first exact: stage_coarse.
- by apply: hasPn_In => e /render_trace_inv; rewrite Hc; case: e => [?|? ? ? ? ? ?|? ? ?|? ?] [] // [].
- by apply: hasPn_In => e /render_no_train_trace_inv; rewrite Hc; case: e => [?|? ? ? ? ? ?|? ? ?|? ?] [] // [].
- by apply: hasPn_In => e /deform_gs_trace_inv; rewrite Hc; case: e => [?|? ? ? ? ? ?|? ? ?|? ?] [] // [].
split=> st a.
  case/render_rasterize_inv=> time [m' [sr [rr [o' [c' [colors []]]]]]] _.
  rewrite stage_coarse //=; case: (compute_cov3D_python pipe) => //.
  by case=> <- <- <- <- <- _ ->.
case/render_no_train_rasterize_inv=> m' [sr [rr [o' [c' [filtered [final []]]]]]].
rewrite stage_coarse //=; case=> <- <- <- <- <- Hf Hfin _ ->.
by exists filtered, final.
Qed.

(** C2: a stage string with neither "coarse" nor "fine" makes the stage
    block raise [NotImplementedError]; [render] (given a camera of the
    announced shape), [render_no_train] and [deform_gs] end with that
    exception, and neither the deformation network nor the rasterizer is
    called.  With "coarse" or "fine" in the string the stage block never
    ends with [NotImplementedError]. *)
Theorem unsupported_stage_raises vc cam pc pipe bg sm oc stage ct cams r t0
    m s rt o c t :
  (~~ str_in "coarse" stage -> ~~ str_in "fine" stage ->
   [/\ deformation_stage pc stage m s rt o c t = raise NotImplementedError,
       camera_fits ct vc ->
       outcome (render vc pc pipe bg sm oc stage ct) = inl NotImplementedError,
       ~~ has is_rasterize (trace (render vc pc pipe bg sm oc stage ct)) /\
       ~~ has is_deformation (trace (render vc pc pipe bg sm oc stage ct)),
       render_no_train cam pc pipe bg sm stage ct cams r = raise NotImplementedError
     & outcome (deform_gs t0 pc stage) = inl NotImplementedError]) /\
  (str_in "coarse" stage || str_in "fine" stage ->
   outcome (deformation_stage pc stage m s rt o c t) <> inl NotImplementedError).
Proof.
split=> [Hc Hf|]; last first.
  rewrite /deformation_stage; case: (str_in "coarse" stage) => //=.
  by case: (str_in "fine" stage) => //= _; case: (_deformation _ _ _ _ _ _ _).
split; first exact: stage_unsupported.
- move=> /(setup_fits pc pipe bg sm (get_xyz pc)) [st [tm Hs]].
  rewrite /render !outcome_bind /= Hs /=.
  by case: (compute_cov3D_python pipe); rewrite outcome_bind stage_unsupported.
- apply/andP; rewrite -negb_or -has_predU; apply: hasPn_In => e /render_trace_inv.
  by rewrite (negbTE Hc) (negbTE Hf); case: e => [?|? ? ? ? ? ?|? ? ?|? ?] [] // [].
- by rewrite /render_no_train stage_unsupported.
by rewrite /deform_gs !outcome_bind /= stage_unsupported.
Qed.


(** C6: when [override_color] is given, the colours the rasterizer
    receives are the override itself, whatever the coefficients, the
    camera and the conversion flag, and [eval_sh] is not called. *)
Theorem override_color_is_passed_verbatim vc pc pipe bg sm c stage ct :
  ~~ has is_eval_sh (trace (render vc pc pipe bg sm (Some c) stage ct)) /\
  forall st a,
    List.In (Rasterize st a) (trace (render vc pc pipe bg sm (Some c) stage ct)) ->
    colors_precomp a = Some c.
Proof.
split.
  apply: hasPn_In => e /render_trace_inv.
  by case: e => [?|? ? ? ? ? ?|? ? ?|? ?] [] // [].
move=> st a /render_rasterize_inv [tm [m [sr [rr [o [c' [colors []]]]]]]] _ _.
by case=> <- ->.
Qed.

(** The geometry [render] passes when the covariance is not precomputed:
    activated scales and rotations, and no covariance. *)
Lemma scale_rotation_encoding vc pc pipe bg sm oc stage ct st a :
  ~~ compute_cov3D_python pipe ->
  List.In (Rasterize st a) (trace (render vc pc pipe bg sm oc stage ct)) ->
  [/\ scales a <> None, rotations a <> None & cov3D_precomp a = None].
Proof.
move=> /negbTE Hcov /render_rasterize_inv [tm [m [sr [rr [o [c [colors []]]]]]]].
by rewrite Hcov => _ _ _ ->.
Qed.

(** C7: when [pipe.compute_cov3D_python] is set, [render] never hands the
    rasterizer a covariance alone: a rasterizer call, if there is one,
    receives the covariance and also scales and rotations; and with
    "coarse" in the stage string there is none, [render] ends with
    [TypeError] at the activation of the scales that were set to [None]. *)
Theorem cov3D_python_never_passed_alone vc pc pipe bg sm oc stage ct :
  compute_cov3D_python pipe ->
  (forall st a,
     List.In (Rasterize st a) (trace (render vc pc pipe bg sm oc stage ct)) ->
     [/\ cov3D_precomp a = Some (get_covariance pc sm),
         scales a <> None & rotations a <> None]) /\
  (str_in "coarse" stage ->
   ~~ has is_rasterize (trace (render vc pc pipe bg sm oc stage ct)) /\
   (camera_fits ct vc ->
    outcome (render vc pc pipe bg sm oc stage ct) = inl TypeError)).
Proof.
move=> Hcov; split=> [st a|Hc].
  case/render_rasterize_inv=> tm [m [sr [rr [o [c [colors []]]]]]].
  by rewrite Hcov => _ _ _ ->.
split.
  apply: hasPn_In; case=> // st a.
  case/render_rasterize_inv=> tm [m [sr [rr [o [c [colors []]]]]]] _.
  by rewrite Hcov stage_coarse.
move=> /(setup_fits pc pipe bg sm (get_xyz pc)) [st [tm Hs]].
by rewrite /render !outcome_bind /= Hs /= Hcov stage_coarse.
Qed.

(** [render_no_train] does not call [retain_grad]. *)
Lemma preview_never_retains cam pc pipe bg sm stage ct cams r :
  ~~ has is_retain_grad
       (trace (render_no_train cam pc pipe bg sm stage ct cams r)).
Proof.
apply: hasPn_In => e /render_no_train_trace_inv.
by case: e => [?|? ? ? ? ? ?|? ? ?|? ?] [] // [].
Qed.


(** *** The colour block *)

(** What [resolve_color] computed when it converts in Python. *)
Lemma resolve_color_sh_inv vc pc pipe colors :
  convert_SHs_python pipe ->
  outcome (resolve_color vc pc pipe None) = inr colors ->
  exists cam v d sh2rgb,
    [/\ vc = CameraObject cam,
        transpose_view (get_features pc) ((max_sh_degree pc + 1) ^ 2) = (ret v : M _),
        sub_rows (get_xyz pc)
          (nseq (size (coeffs (get_features pc))) (camera_center cam)) = (ret d : M _),
        eval_sh (active_sh_degree pc) v (normalize_rows d) = inr sh2rgb
      & colors = Some (sh_clamp sh2rgb)].
Proof.
rewrite /resolve_color => ->.
case: (pure_cases (transpose_view_trace (get_features pc) ((max_sh_degree pc + 1) ^ 2)))
  => [[x ->]|[v Ev]] //; rewrite Ev bind_ret.
case: vc => [cam|st t] //; rewrite bind_ret.
case: (pure_cases (sub_rows_trace (get_xyz pc)
         (nseq (size (coeffs (get_features pc))) (camera_center cam))))
  => [[x ->]|[d Ed]] //; rewrite Ed bind_ret /call_eval_sh /call.
case Ee: (eval_sh _ _ _) => [msg|sh2rgb] //= [<-].
by exists cam, v, d, sh2rgb.
Qed.

Lemma clamp_min_not_below (x m : F) : ~~ flt (clamp_min x m) m.
Proof. by rewrite /clamp_min; case: ifP => [_|->] //; rewrite flt_irrefl. Qed.

Lemma sh_clamp_nonnegative sh2rgb : all nonnegative3 (sh_clamp sh2rgb).
Proof.
rewrite /sh_clamp all_map; elim: sh2rgb => [|[[x y] z] s IH] //=.
by rewrite IH andbT /nonnegative3 /= !clamp_min_not_below.
Qed.

(** C5: without an override and with [pipe.convert_SHs_python], the
    colours the rasterizer receives are the result of [eval_sh] with 0.5
    added and clamped below at 0, so no component is negative; with the
    rational scalars a value of -0.7 becomes 0. *)
Theorem sh_color_is_clamped vc pc pipe bg sm stage ct :
  (convert_SHs_python pipe ->
   forall st a,
     List.In (Rasterize st a) (trace (render vc pc pipe bg sm None stage ct)) ->
     exists cam v d sh2rgb,
       [/\ vc = CameraObject cam /\
           transpose_view (get_features pc) ((max_sh_degree pc + 1) ^ 2)
           = (ret v : M _),
           sub_rows (get_xyz pc)
             (nseq (size (coeffs (get_features pc))) (camera_center cam))
           = (ret d : M _),
           eval_sh (active_sh_degree pc) v (normalize_rows d) = inr sh2rgb,
           colors_precomp a =
           Some [seq map3 (fun x => clamp_min (fadd x fhalf) fzero) c | c <- sh2rgb]
         & forall colors, colors_precomp a = Some colors -> all nonnegative3 colors]) /\
  clamp_min (fadd (- 7 # 10)%Q fhalf) fzero = 0%Q.
Proof.
split=> // Hconv st a.
case/render_rasterize_inv=> tm [m [sr [rr [o [c [colors []]]]]]] _ _ Hcol ->.
have [cam [v [d [sh2rgb [-> Ev Ed Ee Ec]]]]] := resolve_color_sh_inv Hconv Hcol.
exists cam, v, d, sh2rgb; split=> //=; rewrite Ec // => cs [<-].
exact: sh_clamp_nonnegative.
Qed.

(** The colours [render] converts in Python are the spherical harmonics
    at the model's own positions, with the model's own coefficients. *)
Lemma sh_color_of_model vc pc pipe bg sm stage ct st a :
  convert_SHs_python pipe ->
  List.In (Rasterize st a) (trace (render vc pc pipe bg sm None stage ct)) ->
  exists cam colors,
    [/\ vc = CameraObject cam,
        outcome (sh_color_at pc (camera_center cam) (get_xyz pc) (get_features pc))
        = inr colors
      & colors_precomp a = Some colors].
Proof.
move=> Hconv.
case/render_rasterize_inv=> tm [m [sr [rr [o [c [colors []]]]]]] _ _ Hcol ->.
have [cam [v [d [sh2rgb [-> Ev Ed Ee Ec]]]]] := resolve_color_sh_inv Hconv Hcol.
exists cam, (sh_clamp sh2rgb); split=> //.
by rewrite /sh_color_at Ev bind_ret Ed bind_ret /call_eval_sh /call Ee.
Qed.


(** *** The spatial filter *)

Lemma well_shapedP n ps :
  reflect [/\ size (ps_means3D ps) = n, size (ps_means2D ps) = n,
              size (coeffs (ps_shs ps)) = n
            & [/\ size (ps_opacity ps) = n, size (ps_scales ps) = n
                & size (ps_rotations ps) = n]]
          (well_shaped n ps).
Proof.
apply: (iffP idP) => [/and5P [/eqP ? /eqP ? /eqP ? /eqP ? /andP [/eqP ? /eqP ?]]|].
  by split.
by rewrite /well_shaped => -[-> -> -> [-> -> ->]]; rewrite !eqxx.
Qed.

Lemma rows_positions n ps :
  well_shaped n ps -> [seq position_of p | p <- rows ps] = ps_means3D ps.
Proof.
case/well_shapedP=> H1 H2 H3 [H4 H5 H6].
have ->: forall l : seq (@primitive F),
    [seq position_of p | p <- l] = unzip1 (unzip1 (unzip1 (unzip1 (unzip1 l)))).
  by move=> l; rewrite /unzip1 -!map_comp.
by rewrite /rows !unzip1_zip // ?size_zip ?H1 ?H2 ?H3 ?H4 ?H5 ?H6 ?minnn.
Qed.

Lemma size_rows n ps : well_shaped n ps -> size (rows ps) = n.
Proof.
case/well_shapedP=> H1 H2 H3 [H4 H5 H6].
by rewrite /rows !size_zip H1 H2 H3 H4 H5 H6 !minnn.
Qed.

Lemma spatial_filter_masks n ps r :
  well_shaped n ps ->
  spatial_filter ps r =
  ret {| ps_means3D := mask (radius_mask r (ps_means3D ps)) (ps_means3D ps);
         ps_means2D := mask (radius_mask r (ps_means3D ps)) (ps_means2D ps);
         ps_shs := mkSHs (shape1 (ps_shs ps))
                     (mask (radius_mask r (ps_means3D ps)) (coeffs (ps_shs ps)));
         ps_opacity := mask (radius_mask r (ps_means3D ps)) (ps_opacity ps);
         ps_scales := mask (radius_mask r (ps_means3D ps)) (ps_scales ps);
         ps_rotations := mask (radius_mask r (ps_means3D ps)) (ps_rotations ps) |}.
Proof.
case/well_shapedP=> H1 H2 H3 [H4 H5 H6].
have Em: [seq flt d r | d <- norm_dim1 (ps_means3D ps)] = radius_mask r (ps_means3D ps).
  by rewrite /norm_dim1 /radius_mask -map_comp.
rewrite /spatial_filter Em /index_mask /index_mask_shs /radius_mask size_map.
by rewrite H1 H2 H3 H4 H5 H6 eqxx !bind_ret.
Qed.

(** A filter that succeeds was given arrays of one size. *)
Lemma spatial_filter_shaped ps r ps' :
  spatial_filter ps r = ret ps' -> well_shaped (size (ps_means3D ps)) ps.
Proof.
rewrite /spatial_filter /index_mask /index_mask_shs !size_map eqxx bind_ret.
case: eqP => [E2|_] //; rewrite bind_ret.
case: eqP => [E3|_] //; rewrite bind_ret.
case: eqP => [E4|_] //; rewrite bind_ret.
case: eqP => [E5|_] //; rewrite bind_ret.
case: eqP => [E6|_] //; rewrite bind_ret => _.
by rewrite /well_shaped -E2 -E3 -E4 -E5 -E6 !eqxx.
Qed.

(** C4: on six arrays of one size the filter of [render_no_train] keeps
    from each array the rows selected by one mask, true where the norm of
    the position is strictly less than the radius; so the rows kept are
    exactly the primitives within the radius, each with its own anchor,
    coefficients, opacity, scale and rotation.  When no markers are
    requested these arrays, taken after deformation and activation, are
    what the rasterizer receives. *)
Theorem spatial_filter_keeps_rows_within_radius cam pc pipe bg sm stage ct n ps r :
  (well_shaped n ps ->
   exists ps',
     [/\ spatial_filter ps r = ret ps',
         rows ps' = [seq p <- rows ps | within_radius r (position_of p)],
         ps_means3D ps' = [seq p <- ps_means3D ps | flt (norm3 p) r],
         shape1 (ps_shs ps') = shape1 (ps_shs ps)
       & well_shaped (count (within_radius r) (ps_means3D ps)) ps']) /\
  (forall st a,
     List.In (Rasterize st a)
       (trace (render_no_train cam pc pipe bg sm stage ct None r)) ->
     exists m sr rr o c,
       let ps0 := {| ps_means3D := m;
                    ps_means2D := add_scalar3 (zeros_like3 (get_xyz pc)) fzero;
                    ps_shs := c;
                    ps_opacity := opacity_activation pc o;
                    ps_scales := scaling_activation pc sr;
                    ps_rotations := rotation_activation pc rr |} in
       [/\ outcome (deformation_stage pc stage (get_xyz pc) (Some (_scaling pc))
                      (Some (_rotation pc)) (_opacity pc) (get_features pc)
                      (nseq (size (get_xyz pc)) (time cam)))
           = inr (m, Some sr, Some rr, o, c),
           well_shaped (size (get_xyz pc)) ps0
         & zip (zip (zip (zip (zip (means3D a) (means2D a)) (coeffs (shs a)))
                         (opacities a)) (odflt [::] (scales a)))
               (odflt [::] (rotations a))
           = [seq p <- rows ps0 | within_radius r (position_of p)]]).
Proof.
have main n' ps1 : well_shaped n' ps1 ->
    exists ps',
     [/\ spatial_filter ps1 r = ret ps',
         rows ps' = [seq p <- rows ps1 | within_radius r (position_of p)],
         ps_means3D ps' = [seq p <- ps_means3D ps1 | flt (norm3 p) r],
         shape1 (ps_shs ps') = shape1 (ps_shs ps1)
       & well_shaped (count (within_radius r) (ps_means3D ps1)) ps'].
  move=> Hs; eexists; split; first exact: (spatial_filter_masks r Hs).
  - rewrite filter_mask {1}/rows /= !zip_mask -/(rows ps1); congr (mask _ _).
    by rewrite -{1}(rows_positions Hs) /radius_mask -map_comp.
  - by rewrite /= filter_mask.
  - by [].
  case/well_shapedP: Hs => H1 H2 H3 [H4 H5 H6].
  by apply/well_shapedP; do !split=> /=;
    rewrite size_mask /radius_mask ?size_map ?count_map ?H1 ?H2 ?H3 ?H4 ?H5 ?H6.
split; first exact: main.
move=> st a /render_no_train_rasterize_inv.
case=> m [sr [rr [o [c [filtered [final [Hstage Hf [<-] _ ->]]]]]]].
exists m, sr, rr, o, c; split=> //.
  have /well_shapedP [_ /= E _ _] := spatial_filter_shaped Hf.
  have Ez : size (add_scalar3 (zeros_like3 (get_xyz pc)) fzero) = size (get_xyz pc).
    by rewrite /add_scalar3 /zeros_like3 !size_map.
  by rewrite -[size (get_xyz pc)]Ez E (spatial_filter_shaped Hf).
have [ps' [Hf' <- _ _ _]] := main _ _ (spatial_filter_shaped Hf).
by move: Hf; rewrite Hf' => -[<-].
Qed.


(** *** The composition with the markers *)

Lemma map_cst S T (c : T) (l : seq S) : [seq c | _ <- l] = nseq (size l) c.
Proof. by elim: l => [|x l /= ->]. Qed.

Lemma add_scalar3_0 (t : seq (@vec3 F)) : add_scalar3 t fzero = t.
Proof.
rewrite /add_scalar3 -[RHS]map_id; apply: eq_map => -[[x y] z] /=.
by rewrite !fadd0r.
Qed.

Lemma add_scalar4_0 (t : seq (@quat F)) : add_scalar4 t fzero = t.
Proof.
rewrite /add_scalar4 -[RHS]map_id; apply: eq_map => -[[[w x] y] z] /=.
by rewrite !fadd0r.
Qed.

Lemma zeros_like3E (t : seq (@vec3 F)) : zeros_like3 t = nseq (size t) zero3.
Proof. exact: map_cst. Qed.

(** What the marker set is, once the additions of zero are done. *)
Lemma marker_setE cp c :
  marker_set cp c =
  {| ps_means3D := xyzs cp;
     ps_means2D := nseq (size (xyzs cp)) zero3;
     ps_shs := mkSHs c (nseq (size (xyzs cp)) (nseq c zero3));
     ps_opacity := nseq (size (xyzs cp)) fone;
     ps_scales := nseq (size (xyzs cp)) (scale cp);
     ps_rotations := qs cp |}.
Proof.
rewrite /marker_set !add_scalar3_0 add_scalar4_0 !zeros_like3E.
congr Build_PrimitiveSet.
- by rewrite map_nseq /= fadd0r.
- by rewrite map_cst fadd0r.
rewrite /add_columns !map_nseq /= !fadd0l.
by case: (scale cp) => [[? ?] ?].
Qed.


Lemma marker_set_shaped cp c k :
  size (xyzs cp) = k -> size (qs cp) = k -> well_shaped k (marker_set cp c).
Proof.
by move=> Hx Hq; rewrite marker_setE /well_shaped /= !size_nseq Hx Hq !eqxx.
Qed.

Lemma rows_cat n ps1 ps2 :
  well_shaped n ps1 ->
  rows {| ps_means3D := ps_means3D ps1 ++ ps_means3D ps2;
          ps_means2D := ps_means2D ps1 ++ ps_means2D ps2;
          ps_shs := mkSHs (shape1 (ps_shs ps1))
                      (coeffs (ps_shs ps1) ++ coeffs (ps_shs ps2));
          ps_opacity := ps_opacity ps1 ++ ps_opacity ps2;
          ps_scales := ps_scales ps1 ++ ps_scales ps2;
          ps_rotations := ps_rotations ps1 ++ ps_rotations ps2 |}
  = rows ps1 ++ rows ps2.
Proof.
case/well_shapedP=> H1 H2 H3 [H4 H5 H6].
by rewrite /rows /= !zip_cat // ?size_zip ?H1 ?H2 ?H3 ?H4 ?H5 ?H6 ?minnn.
Qed.

(** C3: for a scene set of 100 primitives and a descriptor of 8 markers,
    [show_cameras] and [show_scene] give 108 rows, each array being the
    scene's array followed by the markers' array, so that the first 100
    rows are the scene's and the last 8 have opacity 1 and the scale of
    the descriptor; [show_cameras] without [show_scene] gives the 8 marker
    rows; without [show_cameras], or without a descriptor, the result is
    the scene set. *)
Theorem compose_scene_and_markers ps cp :
  well_shaped 100 ps -> size (xyzs cp) = 8 -> size (qs cp) = 8 ->
  let m := marker_set cp (shape1 (ps_shs ps)) in
  [/\ show_cameras cp -> show_scene cp ->
      exists res,
        [/\ compose (Some cp) ps = ret res,
            well_shaped 108 res,
            rows res = rows ps ++ rows m /\ take 100 (rows res) = rows ps,
            [/\ ps_means3D res = ps_means3D ps ++ ps_means3D m,
                ps_means2D res = ps_means2D ps ++ ps_means2D m,
                coeffs (ps_shs res) = coeffs (ps_shs ps) ++ coeffs (ps_shs m)
              & [/\ ps_opacity res = ps_opacity ps ++ ps_opacity m,
                    ps_scales res = ps_scales ps ++ ps_scales m
                  & ps_rotations res = ps_rotations ps ++ ps_rotations m]]
          & drop 100 (ps_opacity res) = nseq 8 fone /\
            drop 100 (ps_scales res) = nseq 8 (scale cp)],
      show_cameras cp -> ~~ show_scene cp ->
      [/\ compose (Some cp) ps = ret m, well_shaped 8 m,
          ps_opacity m = nseq 8 fone & ps_scales m = nseq 8 (scale cp)],
      ~~ show_cameras cp -> compose (Some cp) ps = ret ps
    & compose None ps = ret ps].
Proof.
move=> Hps Hx Hq m.
have Hm : well_shaped 8 m by exact: marker_set_shaped.
have Eo : ps_opacity m = nseq 8 fone by rewrite /m marker_setE /= Hx.
have Es : ps_scales m = nseq 8 (scale cp) by rewrite /m marker_setE /= Hx.
have Eboth : show_cameras cp -> show_scene cp ->
    compose (Some cp) ps =
    ret {| ps_means3D := ps_means3D ps ++ ps_means3D m;
           ps_means2D := ps_means2D ps ++ ps_means2D m;
           ps_shs := mkSHs (shape1 (ps_shs ps))
                       (coeffs (ps_shs ps) ++ coeffs (ps_shs m));
           ps_opacity := ps_opacity ps ++ ps_opacity m;
           ps_scales := ps_scales ps ++ ps_scales m;
           ps_rotations := ps_rotations ps ++ ps_rotations m |}.
  by rewrite /compose => -> ->; rewrite /cat_shs /= eqxx bind_ret.
have Eonly : show_cameras cp -> ~~ show_scene cp -> compose (Some cp) ps = ret m.
  by rewrite /compose => -> /negbTE ->.
clearbody m.
case/well_shapedP: (Hps) => H1 H2 H3 [H4 H5 H6].
case/well_shapedP: (Hm) => M1 M2 M3 [M4 M5 M6].
split=> //.
- move=> Hc Hsc; rewrite (Eboth Hc Hsc).
  eexists; split; first by [].
  + by apply/well_shapedP; do !split=> /=;
      rewrite size_cat ?H1 ?H2 ?H3 ?H4 ?H5 ?H6 ?M1 ?M2 ?M3 ?M4 ?M5 ?M6.
  + by rewrite (rows_cat _ Hps) take_size_cat // (size_rows Hps).
  + by [].
  by rewrite /= !drop_size_cat.
- by move=> Hc Hsc; split=> //; exact: Eonly.
by rewrite /compose => /negbTE ->.
Qed.


(** *** The gradient anchor of the preview *)

Lemma bind_outcome_inr A B (m : M A) (k : A -> M B) b :
  outcome (bind m k) = inr b ->
  exists a, [/\ outcome m = inr a, outcome (k a) = inr b
             & forall e, List.In e (trace (k a)) -> List.In e (trace (bind m k))].
Proof.
rewrite outcome_bind trace_bind; case: (outcome m) => // a Hk.
by exists a; split=> // e He; apply/In_cat; right.
Qed.

Ltac out_bind :=
  let H := fresh "Hout" in move=> H; case: (bind_outcome_inr H) => {H}.

Lemma render_no_train_outcome_inv cam pc pipe bg sm stage ct cams r out :
  outcome (render_no_train cam pc pipe bg sm stage ct cams r) = inr out ->
  exists st a img dp,
    [/\ List.In (Rasterize st a)
          (trace (render_no_train cam pc pipe bg sm stage ct cams r)),
        rasterizer st a = inr (img, radii out, dp),
        viewspace_points out = add_scalar3 (zeros_like3 (get_xyz pc)) fzero
      & visibility_filter out = [seq (0 <? x)%Z | x <- radii out]].
Proof.
rewrite /render_no_train.
out_bind=> -[[[[m s] rt] o] c] [_ + H1].
out_bind=> sf [_ + H2].
out_bind=> rf [_ + H3].
out_bind=> filtered [_ + H4].
out_bind=> final [_ + H5].
set st := settings_of _ _ _ _ _; set a := Build_RasterArgs _ _ _ _ _ _ _ _.
rewrite /call_rasterizer /call /outcome /=.
case Er: (rasterizer st a) => [msg|[[img rd] dp]] //= [<-] /=.
exists st, a, img, dp; split=> //.
by apply: H1; apply: H2; apply: H3; apply: H4; apply: H5; rewrite /= Er; left.
Qed.

Lemma compose_size cams ps res :
  compose cams ps = ret res ->
  size (ps_means3D res) = composed_size cams (size (ps_means3D ps)).
Proof.
rewrite /compose /composed_size; case: cams => [cp|]; last by case=> <-.
case: (show_cameras cp); last by case=> <-.
case: (show_scene cp); last by case=> <-; rewrite /marker_set /= /add_scalar3 size_map.
rewrite /cat_shs /= eqxx bind_ret => -[<-] /=.
by rewrite size_cat /add_scalar3 size_map.
Qed.


(** C10, amended: the "viewspace_points" of [render_no_train] is the
    zero array with one row per primitive of the model, whatever the
    filter and the markers do.  The rasterizer receives [k] rows without
    markers, [k] plus the markers with markers and scene, and the markers
    alone otherwise, [k] being the number of positions within the radius.
    So the anchor has more rows than are rasterized when rows are removed
    and no markers are shown, and fewer when markers are appended and no
    row is removed; and a rasterizer that answers with one radius per
    primitive gives radii and a visibility mask of the rasterized length. *)
Theorem anchor_rows_and_rasterized_rows cam pc pipe bg sm stage ct cams r :
  let n := size (get_xyz pc) in
  let run := render_no_train cam pc pipe bg sm stage ct cams r in
  [/\ forall out, outcome run = inr out -> viewspace_points out = nseq n zero3,
      forall st a, List.In (Rasterize st a) (trace run) ->
        exists m,
          [/\ (exists sr rr o c,
                 outcome (deformation_stage pc stage (get_xyz pc) (Some (_scaling pc))
                            (Some (_rotation pc)) (_opacity pc) (get_features pc)
                            (nseq n (time cam)))
                 = inr (m, sr, rr, o, c)),
              size m = n,
              size (means3D a) = composed_size cams (count (within_radius r) m),
              (if cams is Some cp then ~~ show_cameras cp else true) ->
              ~~ all (within_radius r) m -> size (means3D a) < n
            & forall cp, cams = Some cp -> show_cameras cp -> show_scene cp ->
              all (within_radius r) m -> 0 < size (xyzs cp) -> n < size (means3D a)]
    & (forall st a img rd dp,
         rasterizer st a = inr (img, rd, dp) -> size rd = size (means3D a)) ->
      forall out, outcome run = inr out ->
        exists st a,
          [/\ List.In (Rasterize st a) (trace run),
              size (radii out) = size (means3D a)
            & size (visibility_filter out) = size (means3D a)]].
Proof.
move=> n run; rewrite {}/run; split.
- move=> out Ho.
  have [st [a [img [dp [_ _ -> _]]]]] := render_no_train_outcome_inv Ho.
  by rewrite add_scalar3_0 zeros_like3E.
- move=> st a Hin.
  have [m [sr [rr [o [c [filtered [final [Hstage Hf Hfin _ ->]]]]]]]] :=
    render_no_train_rasterize_inv Hin.
  have Hsh := spatial_filter_shaped Hf.
  have /well_shapedP [_ /= E _ _] := spatial_filter_shaped Hf.
  have Em : size m = n by rewrite -E /add_scalar3 /zeros_like3 !size_map.
  have Ek : size (ps_means3D filtered) = count (within_radius r) m.
    move: Hf; rewrite (spatial_filter_masks r Hsh) => -[<-] /=.
    by rewrite size_mask /radius_mask ?size_map // count_map.
  have Es : size (ps_means3D final) = composed_size cams (count (within_radius r) m).
    by rewrite (compose_size Hfin) Ek.
  exists m; split=> //=; first by exists (Some sr), (Some rr), o, c.
  + move=> Hoff Hout; rewrite Es -Em.
    have ->: composed_size cams (count (within_radius r) m) = count (within_radius r) m.
      by rewrite /composed_size; case: (cams) Hoff => [cp /negbTE ->|].
    by rewrite ltn_neqAle count_size andbT -all_count.
  move=> cp Ec Hc Hs Hall Hpos.
  rewrite Es Ec /composed_size Hc Hs -Em.
  by move: Hall; rewrite all_count => /eqP ->; rewrite -[X in X < _]addn0 ltn_add2l.
move=> Hrast out Ho.
have [st [a [img [dp [Hin Hr _ Hv]]]]] := render_no_train_outcome_inv Ho.
by exists st, a; split=> //; rewrite ?Hv ?size_map (Hrast _ _ _ _ _ Hr).
Qed.

(** C10 as it was stated fails: with one primitive outside the radius and
    one marker shown with the scene, a row is removed, a marker is added,
    and the anchor has as many rows as are rasterized and as the radii and
    the visibility mask. *)
Lemma anchor_rows_can_equal_rasterized_rows :
  let run := Scene.preview "coarse" (Some (Scene.marker true true)) (Scene.z 2) in
  exists out a,
    [/\ outcome run = inr out,
        rasterized (trace run) = [:: a],
        count (within_radius (Scene.z 2)) (get_xyz Scene.pc) < size (get_xyz Scene.pc) /\
        size (xyzs (Scene.marker true true)) = 1,
        size (viewspace_points out) = size (means3D a)
      & size (viewspace_points out) = size (radii out) /\
        size (viewspace_points out) = size (visibility_filter out)].
Proof. by do 2 eexists; split; vm_compute. Qed.

End RendererFacts.

(** C8: whether [retain_grad] raises or not makes no difference to
    [render] and [deform_gs]: the calls made and the result are those of
    a run in which it succeeds, so its failure is never the result;
    [render_no_train] does not call it. *)
Theorem retain_grad_failure_is_swallowed (F : Type) (num : Scalar F)
    (Image Depth : Type) (retain_grad : seq (@vec3 F) -> option string)
    eval_sh (rasterizer : @RasterSettings F -> @RasterArgs F ->
                          string + (Image * seq Z * Depth))
    vc cam pc pipe bg sm oc stage ct cams r t0 :
  [/\ render retain_grad eval_sh rasterizer vc pc pipe bg sm oc stage ct =
      render (fun _ => None) eval_sh rasterizer vc pc pipe bg sm oc stage ct,
      deform_gs retain_grad t0 pc stage = deform_gs (fun _ => None) t0 pc stage
    & ~~ has is_retain_grad
         (trace (render_no_train rasterizer cam pc pipe bg sm stage ct cams r))].
Proof. by split=> //; exact: preview_never_retains. Qed.

(** C9: in [render], without an override and with
    [pipe.convert_SHs_python], the colours are the spherical harmonics
    evaluated at the model's own positions with the model's own
    coefficients, whatever the stage; in the scene above, rendered with
    stage "fine", the deformation moves the primitive and the colours
    differ from the spherical harmonics evaluated at the position and
    coefficients that are rasterized. *)
Theorem sh_color_uses_undeformed_model :
  (forall (F : Type) (num : Scalar F) (Image Depth : Type) retain_grad eval_sh
          (rasterizer : @RasterSettings F -> @RasterArgs F ->
                        string + (Image * seq Z * Depth))
          vc pc pipe bg sm stage ct st a,
     convert_SHs_python pipe ->
     List.In (Rasterize st a)
       (trace (render retain_grad eval_sh rasterizer vc pc pipe bg sm None stage ct)) ->
     exists cam colors,
       [/\ vc = CameraObject cam,
           outcome (sh_color_at eval_sh pc (camera_center cam)
                      (get_xyz pc) (get_features pc)) = inr colors
         & colors_precomp a = Some colors]) /\
  (exists a moved,
     [/\ rasterized (trace (Scene.run false true None "fine")) = [:: a],
         means3D a <> get_xyz Scene.pc,
         outcome (sh_color_at Scene.eval_sh Scene.pc
                    (camera_center Scene.camera) (means3D a) (shs a))
         = inr moved
       & colors_precomp a <> Some moved]).
Proof.
split; first by move=> *; apply: sh_color_of_model; eauto.
by do 2 eexists; split; vm_compute.
Qed.

(* ===================================================================== *)
(** ** The statements at work on the small scene *)
(* ===================================================================== *)

Ltac find_call := vm_compute; repeat (first [left; reflexivity | right]).

Lemma coarse_stage_is_identity_witness :
  str_in "coarse" "coarse_stage" /\
  ~~ has is_deformation (trace (Scene.run false false None "coarse_stage")) /\
  exists st a,
    [/\ List.In (Rasterize st a) (trace (Scene.run false false None "coarse_stage")),
        means3D a = get_xyz Scene.pc
      & shs a = get_features Scene.pc].
Proof.
have Hc : str_in "coarse" "coarse_stage" by [].
have [_ Hd _ _ [Hr _]] :=
  coarse_stage_is_identity Scene.no_grad Scene.eval_sh Scene.rasterizer
    (CameraObject Scene.camera) Scene.camera Scene.pc (Scene.pipe false false)
    Scene.bg (Scene.z 1) None None None (Scene.z 2) (Scene.z 0)
    (get_xyz Scene.pc) None None [::] (get_features Scene.pc) [::] Hc.
split=> //; split=> //.
have [st [a Hin]] : exists st a,
    List.In (Rasterize st a) (trace (Scene.run false false None "coarse_stage")).
  by do 2 eexists; find_call.
by exists st, a; have [? ? _ _ _] := Hr st a Hin.
Defined.

Lemma unsupported_stage_raises_witness :
  [/\ ~~ str_in "coarse" "warmup", ~~ str_in "fine" "warmup",
      camera_fits None (CameraObject Scene.camera),
      outcome (Scene.run false false None "warmup") = inl NotImplementedError
    & Scene.preview "warmup" None (Scene.z 2) = raise NotImplementedError] /\
  (str_in "coarse" "fine" || str_in "fine" "fine") /\
  outcome (deformation_stage Scene.pc "fine" (get_xyz Scene.pc) None None [::]
             (get_features Scene.pc) [::]) <> inl NotImplementedError.
Proof.
have [H1 H2] :=
  unsupported_stage_raises Scene.no_grad Scene.eval_sh Scene.rasterizer
    (CameraObject Scene.camera) Scene.camera Scene.pc (Scene.pipe false false)
    Scene.bg (Scene.z 1) None "warmup" None None (Scene.z 2) (Scene.z 0)
    (get_xyz Scene.pc) None None [::] (get_features Scene.pc) [::].
have [_ Hr _ Hp _] := H1 isT isT.
split; first by split=> //; exact: Hr.
have [_ H3] :=
  unsupported_stage_raises Scene.no_grad Scene.eval_sh Scene.rasterizer
    (CameraObject Scene.camera) Scene.camera Scene.pc (Scene.pipe false false)
    Scene.bg (Scene.z 1) None "fine" None None (Scene.z 2) (Scene.z 0)
    (get_xyz Scene.pc) None None [::] (get_features Scene.pc) [::].
by split=> //; exact: H3.
Defined.

Lemma override_color_is_passed_verbatim_witness :
  exists st a,
    List.In (Rasterize st a)
      (trace (Scene.run false true (Some [:: (Scene.z 1, Scene.z 0, Scene.z 0)]) "fine")) /\
    colors_precomp a = Some [:: (Scene.z 1, Scene.z 0, Scene.z 0)].
Proof.
have [st [a Hin]] : exists st a,
    List.In (Rasterize st a)
      (trace (Scene.run false true (Some [:: (Scene.z 1, Scene.z 0, Scene.z 0)]) "fine")).
  by do 2 eexists; find_call.
exists st, a; split=> //.
exact: (proj2 (override_color_is_passed_verbatim Scene.no_grad Scene.eval_sh
                 Scene.rasterizer (CameraObject Scene.camera) Scene.pc
                 (Scene.pipe false true) Scene.bg (Scene.z 1) _ "fine" None) st a Hin).
Defined.

Lemma cov3D_python_never_passed_alone_witness :
  [/\ compute_cov3D_python (Scene.pipe true false), str_in "coarse" "coarse",
      camera_fits None (CameraObject Scene.camera)
    & outcome (Scene.run true false None "coarse") = inl TypeError] /\
  exists st a,
    [/\ List.In (Rasterize st a)
          (trace (render Scene.no_grad Scene.eval_sh Scene.rasterizer
                    (CameraObject Scene.camera) Scene.pc_fill (Scene.pipe true false)
                    Scene.bg (Scene.z 1) None "fine" None)),
        cov3D_precomp a <> None, scales a <> None & rotations a <> None].
Proof.
split.
  have [_ H] :=
    @cov3D_python_never_passed_alone _ _ _ _ Scene.no_grad Scene.eval_sh
      Scene.rasterizer (CameraObject Scene.camera) Scene.pc (Scene.pipe true false)
      Scene.bg (Scene.z 1) None "coarse" None isT.
  by have [_ Ho] := H isT; split=> //; exact: Ho.
have [H _] :=
  @cov3D_python_never_passed_alone _ _ _ _ Scene.no_grad Scene.eval_sh
    Scene.rasterizer (CameraObject Scene.camera) Scene.pc_fill (Scene.pipe true false)
    Scene.bg (Scene.z 1) None "fine" None isT.
have [st [a Hin]] : exists st a,
    List.In (Rasterize st a)
      (trace (render Scene.no_grad Scene.eval_sh Scene.rasterizer
                (CameraObject Scene.camera) Scene.pc_fill (Scene.pipe true false)
                Scene.bg (Scene.z 1) None "fine" None)).
  by do 2 eexists; find_call.
by exists st, a; have [-> ? ?] := H st a Hin.
Defined.

Lemma sh_color_is_clamped_witness :
  convert_SHs_python (Scene.pipe false true) /\
  exists st a colors,
    [/\ List.In (Rasterize st a) (trace (Scene.run false true None "coarse")),
        colors_precomp a = Some colors
      & all nonnegative3 colors].
Proof.
split=> //.
have [H _] :=
  @sh_color_is_clamped _ _ _ _ Scene.no_grad Scene.eval_sh Scene.rasterizer Q_laws
    (CameraObject Scene.camera) Scene.pc (Scene.pipe false true) Scene.bg
    (Scene.z 1) "coarse" None.
have [st [a Hin]] : exists st a,
    List.In (Rasterize st a) (trace (Scene.run false true None "coarse")).
  by do 2 eexists; find_call.
have [cam [v [d [sh2rgb [_ _ _ Hc Hn]]]]] := H isT st a Hin.
by exists st, a, (sh_clamp sh2rgb); split=> //; exact: Hn.
Defined.

Lemma spatial_filter_keeps_rows_within_radius_witness :
  well_shaped 3 Scene.three /\
  (exists ps',
     [/\ spatial_filter Scene.three (Scene.z 2) = ret ps',
         rows ps' = [seq p <- rows Scene.three
                       | within_radius (Scene.z 2) (position_of p)]
       & ps_means3D ps' = [:: (Scene.z 1, Scene.z 0, Scene.z 0)]]) /\
  exists st a m,
    List.In (Rasterize st a) (trace (Scene.preview "fine" None (Scene.z 6))) /\
    exists sr rr o c,
      outcome (deformation_stage Scene.pc "fine" (get_xyz Scene.pc)
                 (Some (_scaling Scene.pc)) (Some (_rotation Scene.pc))
                 (_opacity Scene.pc) (get_features Scene.pc)
                 (nseq (size (get_xyz Scene.pc)) (time Scene.camera)))
      = inr (m, Some sr, Some rr, o, c).
Proof.
have [_ H2] :=
  @spatial_filter_keeps_rows_within_radius _ _ _ _ Scene.rasterizer Scene.camera
     Scene.pc (Scene.pipe false false) Scene.bg (Scene.z 1) "fine" None 3
     Scene.three (Scene.z 6).
have [H3 _] :=
  @spatial_filter_keeps_rows_within_radius _ _ _ _ Scene.rasterizer Scene.camera
     Scene.pc (Scene.pipe false false) Scene.bg (Scene.z 1) "fine" None 3
     Scene.three (Scene.z 2).
split=> //; split.
  by have [ps' [Hf Hr Hm _ _]] := H3 isT; exists ps'; split=> //; rewrite Hm.
have [st [a Hin]] : exists st a,
    List.In (Rasterize st a) (trace (Scene.preview "fine" None (Scene.z 6))).
  by do 2 eexists; find_call.
have [m [sr [rr [o [c [Hs _ _]]]]]] := H2 st a Hin.
by exists st, a, m; split=> //; exists sr, rr, o, c.
Defined.

Lemma compose_scene_and_markers_witness :
  [/\ well_shaped 100 Scene.scene100,
      size (xyzs (Scene.markers8 true true)) = 8
    & size (qs (Scene.markers8 true true)) = 8] /\
  (exists res,
     [/\ compose (Some (Scene.markers8 true true)) Scene.scene100 = ret res,
         well_shaped 108 res,
         take 100 (rows res) = rows Scene.scene100,
         drop 100 (ps_opacity res) = nseq 8 1%Q
       & drop 100 (ps_scales res) = nseq 8 (Scene.z 1, Scene.z 2, Scene.z 3)]) /\
  well_shaped 8 (marker_set (Scene.markers8 true false) 1) /\
  compose (Some (Scene.markers8 false true)) Scene.scene100 = ret Scene.scene100.
Proof.
have Hs : well_shaped 100 Scene.scene100 by [].
have [Hboth _ _ _] :=
  @compose_scene_and_markers _ _ Q_laws Scene.scene100 (Scene.markers8 true true)
    Hs erefl erefl.
have [_ Honly _ _] :=
  @compose_scene_and_markers _ _ Q_laws Scene.scene100 (Scene.markers8 true false)
    Hs erefl erefl.
have [_ _ Hoff _] :=
  @compose_scene_and_markers _ _ Q_laws Scene.scene100 (Scene.markers8 false true)
    Hs erefl erefl.
split=> //; split.
  have [res [Hc Hw [_ Ht] _ [Ho Hsc]]] := Hboth isT isT.
  by exists res; split.
split; first by have [_ Hw _ _] := Honly isT isT.
exact: Hoff.
Defined.

Lemma anchor_rows_and_rasterized_rows_witness :
  exists out st a,
    [/\ outcome (Scene.preview "coarse" None (Scene.z 2)) = inr out,
        List.In (Rasterize st a) (trace (Scene.preview "coarse" None (Scene.z 2))),
        viewspace_points out = nseq 1 zero3,
        size (means3D a) < 1
      & size (radii out) = size (means3D a)].
Proof.
have [Hv Hr Hc] :=
  @anchor_rows_and_rasterized_rows _ _ _ _ Scene.rasterizer Q_laws Scene.camera
    Scene.pc (Scene.pipe false false) Scene.bg (Scene.z 1) "coarse" None None
    (Scene.z 2).
have [out Ho] : exists out,
    outcome (Scene.preview "coarse" None (Scene.z 2)) = inr out.
  by eexists; vm_compute.
have Hcontract : forall st a img rd dp,
    Scene.rasterizer st a = inr (img, rd, dp) -> size rd = size (means3D a).
  by move=> st a img rd dp [_ <- _]; rewrite size_nseq.
have [st [a [Hin Hrd _]]] := Hc Hcontract out Ho.
have [m [[sr [rr [o [c Hs]]]] Hm Hk Hlt _]] := Hr st a Hin.
exists out, st, a; split=> //; first exact: Hv.
apply: Hlt => //.
by move: Hs; rewrite stage_coarse // => -[<- _ _ _ _].
Defined.

Lemma sh_color_uses_undeformed_model_witness :
  convert_SHs_python (Scene.pipe false true) /\
  exists st a colors,
    [/\ List.In (Rasterize st a) (trace (Scene.run false true None "fine")),
        outcome (sh_color_at Scene.eval_sh Scene.pc (camera_center Scene.camera)
                   (get_xyz Scene.pc) (get_features Scene.pc)) = inr colors
      & colors_precomp a = Some colors].
Proof.
split=> //.
have [H _] := sh_color_uses_undeformed_model.
have [st [a Hin]] : exists st a,
    List.In (Rasterize st a) (trace (Scene.run false true None "fine")).
  by do 2 eexists; find_call.
have [cam [colors [[<-] Hc Ha]]] :=
  H Q Q_scalar unit unit Scene.no_grad Scene.eval_sh Scene.rasterizer
    (CameraObject Scene.camera) Scene.pc (Scene.pipe false true) Scene.bg
    (Scene.z 1) "fine"%string None st a isT Hin.
by exists st, a, colors.
Defined.

(** With the autograd that refuses, [render] still reaches the rasterizer
    and returns its output. *)
Lemma render_proceeds_without_grad :
  Scene.no_grad (get_xyz Scene.pc) = Some "no grad"%string /\
  has is_rasterize (trace (Scene.run false false None "coarse")) /\
  exists out, outcome (Scene.run false false None "coarse") = inr out.
Proof. by split=> //; split=> //; eexists; vm_compute. Qed.

(* ===================================================================== *)
(** ** The paths through the three functions *)
(* ===================================================================== *)

Section Paths.

Local Arguments bind : simpl never.

Context {F : Type} {num : Scalar F}.
Variables Image Depth : Type.
Variable retain_grad : seq (@vec3 F) -> option string.
Variable eval_sh : nat -> seq (@sh_view_row F) -> seq (@vec3 F) -> string + seq (@vec3 F).
Variable rasterizer :
  @RasterSettings F -> @RasterArgs F -> string + (Image * seq Z * Depth).

Local Notation M := (M (@event F)).
Local Notation render := (render retain_grad eval_sh rasterizer).
Local Notation render_no_train := (render_no_train rasterizer).
Local Notation deform_gs := (deform_gs retain_grad).
Local Notation resolve_color := (resolve_color eval_sh).

Implicit Types (pc : @GaussianModel F) (pipe : PipelineParams) (stage : string).
Implicit Types (ps : @PrimitiveSet F) (cp : @CamsPC F).

Lemma rasterizer_step (anchor : seq (@vec3 F)) st a :
  bind (call_rasterizer rasterizer st a)
    (fun '(rendered_image, radii, depth) =>
       ret {| out_render := rendered_image;
              viewspace_points := anchor;
              visibility_filter := [seq (0 <? x)%Z | x <- radii];
              radii := radii;
              depth := depth |})
  = ([:: Rasterize st a], packaged anchor (rasterizer st a)).
Proof.
rewrite /call_rasterizer /call /packaged /bind /=.
by case: (rasterizer st a) => [msg|[[img rd] dp]].
Qed.

Lemma call_step A B (ev : @event F) (a : A) (k : A -> M B) t res :
  k a = (t, res) -> bind ([:: ev], inr a) k = (ev :: t, res).
Proof. by rewrite /bind => ->. Qed.

Lemma retain_step A (k : unit -> M A) pc t res :
  k tt = (t, res) ->
  bind (try_except_pass (call_retain_grad retain_grad (anchor_of pc))) k =
  (RetainGrad (anchor_of pc) :: t, res).
Proof. exact: call_step. Qed.

(** [render] on its usual path: a camera object, "coarse" in the stage,
    no precomputed covariance, colours given or left to the rasterizer. *)
Theorem render_coarse_path cam pc pipe bg sm oc stage ct :
  str_in "coarse" stage -> py_neq_str ct "PanopticSports" ->
  ~~ compute_cov3D_python pipe ->
  (if oc is None then ~~ convert_SHs_python pipe else true) ->
  let st := settings_of cam pc pipe bg sm in
  let a := {| means3D := get_xyz pc;
              means2D := anchor_of pc;
              shs := get_features pc;
              colors_precomp := oc;
              opacities := opacity_activation pc (_opacity pc);
              scales := Some (scaling_activation pc (_scaling pc));
              rotations := Some (rotation_activation pc (_rotation pc));
              cov3D_precomp := None |} in
  render (CameraObject cam) pc pipe bg sm oc stage ct =
  ([:: RetainGrad (anchor_of pc); Rasterize st a],
   packaged (anchor_of pc) (rasterizer st a)).
Proof.
move=> Hc Hct /negbTE Hcov Hcol st a.
rewrite /render -/(anchor_of pc); apply: retain_step.
rewrite /raster_setup Hct bind_ret Hcov /=.
rewrite /deformation_stage Hc !bind_ret /=.
have ->: resolve_color (CameraObject cam) pc pipe oc = ret oc.
  by rewrite /resolve_color; case: oc Hcol {a} => // /negbTE ->.
by rewrite bind_ret rasterizer_step.
Qed.




(** [deform_gs]: the model's positions with "coarse" in the stage, the
    positions the deformation returns with "fine"; nothing else is called. *)
Theorem deform_gs_paths t0 pc stage :
  (str_in "coarse" stage ->
   deform_gs t0 pc stage = ([:: RetainGrad (anchor_of pc)], inr (get_xyz pc))) /\
  (~~ str_in "coarse" stage -> str_in "fine" stage ->
   deform_gs t0 pc stage =
   ([:: RetainGrad (anchor_of pc);
        Deformation (get_xyz pc) (Some (_scaling pc)) (Some (_rotation pc))
          (_opacity pc) (get_features pc) (nseq (size (get_xyz pc)) t0)],
    match _deformation pc (get_xyz pc) (Some (_scaling pc)) (Some (_rotation pc))
            (_opacity pc) (get_features pc) (nseq (size (get_xyz pc)) t0) with
    | inl msg => inl (ExternalError msg)
    | inr (m, _, _, _, _) => inr m
    end)).
Proof.
split=> [Hc|/negbTE Hc Hf]; rewrite /deform_gs -/(anchor_of pc); apply: retain_step.
  by rewrite /deformation_stage Hc bind_ret.
rewrite /deformation_stage Hc Hf /call_deformation /call.
by case: (_deformation _ _ _ _ _ _ _) => [msg|[[[[m s] r] o] c]].
Qed.


(** *** The rasterizer is called at most once, and its answer is the result *)

Lemma rasterized_none (t : seq (@event F)) :
  (forall e, List.In e t -> ~~ is_rasterize e) -> rasterized t = [::].
Proof.
elim: t => [|e t IH] //= H.
have := H e (or_introl erefl).
by case: e H => [?|? ? ? ? ? ?|? ? ?|? ?] H //= _; apply: IH => e He;
  apply: H; right.
Qed.

Lemma In_rasterized (t : seq (@event F)) st a :
  List.In (Rasterize st a) t -> rasterized t <> [::].
Proof.
elim: t => [|e t IH] //= [->|/IH] //.
by rewrite /rasterized /=; case: e => //= *; case: (pmap _ t).
Qed.

Lemma once_bind A B (m : M A) (k : A -> M B) st a X :
  rasterized (trace m) = [::] ->
  (forall x, List.In (Rasterize st a) (trace (k x)) ->
             outcome (k x) = X /\ rasterized (trace (k x)) = [:: a]) ->
  List.In (Rasterize st a) (trace (bind m k)) ->
  outcome (bind m k) = X /\ rasterized (trace (bind m k)) = [:: a].
Proof.
move=> Hm Hk Hin; case: (In_trace_bind Hin) => [/In_rasterized|[x Ex Hx]] //.
have [Ho Hr] := Hk x Hx.
by rewrite outcome_bind trace_bind /rasterized pmap_cat -/(rasterized _) Hm Ex.
Qed.

Lemma trace_bind_call A B (m : M A) (k : A -> M B) st a X T :
  rasterized (trace m) = [::] ->
  (forall x, List.In (Rasterize st a) (trace (k x)) ->
             outcome (k x) = X /\ trace (k x) = T) ->
  List.In (Rasterize st a) (trace (bind m k)) ->
  outcome (bind m k) = X /\ trace (bind m k) = trace m ++ T.
Proof.
move=> Hm Hk Hin; case: (In_trace_bind Hin) => [/In_rasterized|[x Ex Hx]] //.
have [Ho Hr] := Hk x Hx.
have Eo : outcome m = inr x by rewrite Ex.
by rewrite outcome_bind trace_bind Eo Ho Hr.
Qed.

Lemma rasterized_resolve_color vc pc pipe oc :
  rasterized (trace (resolve_color vc pc pipe oc)) = [::].
Proof.
by apply: rasterized_none => e /resolve_color_trace [He _ _]; case: e He.
Qed.

Lemma rasterized_stage pc stage m s r o c t :
  rasterized (trace (deformation_stage pc stage m s r o c t)) = [::].
Proof. by rewrite stage_trace; case: ifP. Qed.

Lemma last_step (anchor : seq (@vec3 F)) st' a' st a :
  List.In (Rasterize st a) [:: Rasterize st' a'] ->
  packaged anchor (rasterizer st' a') = packaged anchor (rasterizer st a) /\
  rasterized [:: Rasterize st' a'] = [:: a].
Proof. by case=> // -[-> ->]. Qed.

Lemma render_once vc pc pipe bg sm oc stage ct st a :
  List.In (Rasterize st a) (trace (render vc pc pipe bg sm oc stage ct)) ->
  outcome (render vc pc pipe bg sm oc stage ct)
  = packaged (anchor_of pc) (rasterizer st a) /\
  rasterized (trace (render vc pc pipe bg sm oc stage ct)) = [:: a].
Proof.
move Er: (render vc pc pipe bg sm oc stage ct) => R.
move: Er; rewrite /render -/(anchor_of pc) => <-.
apply: once_bind => // _; apply: once_bind; first by rewrite setup_trace.
case=> st' tm'; case: (compute_cov3D_python pipe).
  all: apply: once_bind; first exact: rasterized_stage.
  all: case=> -[[[m' s'] r'] o'] c'.
  all: apply: once_bind; first by rewrite activate_trace.
  all: move=> sf; apply: once_bind; first by rewrite activate_trace.
  all: move=> rf; apply: once_bind; first exact: rasterized_resolve_color.
  all: by move=> cl; rewrite rasterizer_step; exact: last_step.
Qed.

(** Whenever [render] calls the rasterizer it does so once, with the
    zero anchor as [means2D], and ends with the rasterizer's answer: its
    failure, or the dict holding its image, radii and depth, the anchor
    and the mask of the positive radii. *)
Theorem render_answers_with_rasterizer vc pc pipe bg sm oc stage ct st a :
  List.In (Rasterize st a) (trace (render vc pc pipe bg sm oc stage ct)) ->
  [/\ outcome (render vc pc pipe bg sm oc stage ct)
      = packaged (anchor_of pc) (rasterizer st a),
      rasterized (trace (render vc pc pipe bg sm oc stage ct)) = [:: a]
    & means2D a = anchor_of pc].
Proof.
move=> Hin; have [Ho Hr] := render_once Hin.
have [tm [m [sr [rr [o [c [colors [_ _ _ Ea]]]]]]]] := render_rasterize_inv Hin.
by split=> //; rewrite Ea.
Qed.

(** The same for [render_no_train], whose anchor is not what it hands
    to the rasterizer as [means2D]. *)
Theorem preview_answers_with_rasterizer cam pc pipe bg sm stage ct cams r st a :
  List.In (Rasterize st a)
    (trace (render_no_train cam pc pipe bg sm stage ct cams r)) ->
  outcome (render_no_train cam pc pipe bg sm stage ct cams r)
  = packaged (anchor_of pc) (rasterizer st a) /\
  trace (render_no_train cam pc pipe bg sm stage ct cams r)
  = (if ~~ str_in "coarse" stage && str_in "fine" stage
     then [:: Deformation (get_xyz pc) (Some (_scaling pc)) (Some (_rotation pc))
                (_opacity pc) (get_features pc)
                (nseq (size (get_xyz pc)) (time cam))]
     else [::]) ++ [:: Rasterize st a].
Proof.
move Er: (render_no_train cam pc pipe bg sm stage ct cams r) => R.
move: Er; rewrite /render_no_train -/(anchor_of pc) => <-.
rewrite -(stage_trace pc stage (get_xyz pc) (Some (_scaling pc))
            (Some (_rotation pc)) (_opacity pc) (get_features pc)
            (nseq (size (get_xyz pc)) (time cam))).
apply: trace_bind_call; first exact: rasterized_stage.
case=> -[[[m' s'] r'] o'] c' Hin.
have H0 A (m : M A) T : trace m = [::] -> trace m ++ T = T by move=> ->.
rewrite -[X in _ /\ _ = X](H0 _ _ _ (activate_trace (scaling_activation pc) s')).
move: Hin; apply: trace_bind_call; first by rewrite activate_trace.
move=> sf Hin.
rewrite -[X in _ /\ _ = X](H0 _ _ _ (activate_trace (rotation_activation pc) r')).
move: Hin; apply: trace_bind_call; first by rewrite activate_trace.
move=> rf Hin.
set ps0 := Build_PrimitiveSet _ _ _ _ _ _ in Hin *.
rewrite -[X in _ /\ _ = X](H0 _ _ _ (spatial_filter_trace ps0 r)).
move: Hin; apply: trace_bind_call; first by rewrite spatial_filter_trace.
move=> filtered Hin.
rewrite -[X in _ /\ _ = X](H0 _ _ _ (compose_trace cams filtered)).
move: Hin; apply: trace_bind_call; first by rewrite compose_trace.
by move=> final; rewrite rasterizer_step => -[] // [-> ->].
Qed.


(** *** A dict camera *)

(** With [cam_type] "PanopticSports" and a dict camera the rasterizer
    receives the dict's settings as they are, whatever the background,
    the modifier and the flags, and the deformation the dict's time. *)
Theorem render_panoptic_settings st0 t0 pc pipe bg sm oc stage :
  (forall st a,
     List.In (Rasterize st a)
       (trace (render (CameraDict st0 t0) pc pipe bg sm oc stage
                 (Some "PanopticSports"%string))) -> st = st0) /\
  (forall m s r o c t,
     List.In (Deformation m s r o c t)
       (trace (render (CameraDict st0 t0) pc pipe bg sm oc stage
                 (Some "PanopticSports"%string))) ->
     m = get_xyz pc /\ t = nseq (size (get_xyz pc)) t0).
Proof.
split=> [st a Hin|m s r o c t].
  have [tm [m [sr [rr [o [c [colors [Hs _ _ _]]]]]]]] := render_rasterize_inv Hin.
  by move: Hs; rewrite /raster_setup /= => -[->].
rewrite /render; in_bind; first by case.
case=> _ _; rewrite /raster_setup /= bind_ret.
case: (compute_cov3D_python pipe).
  all: in_bind; first by move=> Hd;
    have [_ /andP [/negbTE Hc Hf]] := stage_trace_inv Hd;
    move: Hd; rewrite /deformation_stage Hc Hf; case=> // -[-> _ _ _ _ ->].
all: case=> -[[[[m' s'] r'] o'] c'] _; in_bind; first by rewrite activate_trace.
all: case=> sf _; in_bind; first by rewrite activate_trace.
all: case=> rf _; in_bind; first by case/resolve_color_trace.
all: by case=> cl _; rewrite /call_rasterizer /call /bind /=;
       case: (rasterizer _ _) => [?|[[? ?] ?]] [].
Qed.

(** A dict camera has no [camera_center]: converting the colours in
    Python without an override never reaches [eval_sh] or the rasterizer,
    and on the plain "coarse" path the render ends with [AttributeError]. *)
Theorem render_panoptic_sh_conversion st0 t0 pc pipe bg sm stage :
  convert_SHs_python pipe ->
  [/\ ~~ has is_rasterize
         (trace (render (CameraDict st0 t0) pc pipe bg sm None stage
                   (Some "PanopticSports"%string))),
      ~~ has is_eval_sh
         (trace (render (CameraDict st0 t0) pc pipe bg sm None stage
                   (Some "PanopticSports"%string)))
    & str_in "coarse" stage -> ~~ compute_cov3D_python pipe ->
      shape1 (get_features pc) = (max_sh_degree pc + 1) ^ 2 ->
      outcome (render (CameraDict st0 t0) pc pipe bg sm None stage
                 (Some "PanopticSports"%string)) = inl AttributeError].
Proof.
move=> Hconv.
have Hcol : forall v, transpose_view (get_features pc) ((max_sh_degree pc + 1) ^ 2)
                      = (ret v : M _) ->
    resolve_color (CameraDict st0 t0) pc pipe None = raise AttributeError.
  by move=> v Ev; rewrite /resolve_color Hconv Ev bind_ret.
have Hnone : trace (resolve_color (CameraDict st0 t0) pc pipe None) = [::].
  rewrite /resolve_color Hconv.
  by case: (pure_cases (transpose_view_trace (get_features pc)
                          ((max_sh_degree pc + 1) ^ 2))) => [[x ->]|[v ->]].
have Hsh_never d v dirs :
    ~ List.In (EvalSH d v dirs)
        (trace (render (CameraDict st0 t0) pc pipe bg sm None stage
                  (Some "PanopticSports"%string))).
{ rewrite /render; in_bind; first by case.
  case=> _ _; in_bind; first by rewrite setup_trace.
  case=> -[st' tm'] _; case: (compute_cov3D_python pipe).
    all: in_bind; first by case/stage_trace_inv.
    all: case=> -[[[[m' s'] r'] o'] c'] _; in_bind; first by rewrite activate_trace.
    all: case=> sf _; in_bind; first by rewrite activate_trace.
    all: case=> rf _; in_bind; first by rewrite Hnone.
    all: by case=> cl _; rewrite /call_rasterizer /call /bind /=;
           case: (rasterizer _ _) => [?|[[? ?] ?]] []. }
split.
- apply: hasPn_In; case=> // st a Hin.
  have [tm [m [sr [rr [o [c [colors [_ _ Hc _]]]]]]]] := render_rasterize_inv Hin.
  by have [cam [? [? [? []]]]] := resolve_color_sh_inv Hconv Hc.
- by apply: hasPn_In; case=> // d v dirs /Hsh_never.
move=> Hc /negbTE Hcov Hsh.
have Ev : transpose_view (get_features pc) ((max_sh_degree pc + 1) ^ 2)
          = (ret [seq transpose12 r | r <- coeffs (get_features pc)] : M _).
  by rewrite /transpose_view Hsh eqxx.
have -> // : render (CameraDict st0 t0) pc pipe bg sm None stage
               (Some "PanopticSports"%string)
             = ([:: RetainGrad (anchor_of pc)], inl AttributeError).
rewrite /render -/(anchor_of pc) (Hcol _ Ev); apply: retain_step.
rewrite /raster_setup /= bind_ret Hcov /= (stage_coarse _ _ _ _ _ _ _ Hc).
by rewrite !bind_ret /= ?bind_ret.
Qed.


(** *** More on the spatial filter *)

(** The filter succeeds exactly on six arrays of one length; on any
    other input it ends with [IndexError]. *)
Theorem spatial_filter_needs_one_length ps r :
  (well_shaped (size (ps_means3D ps)) ps ->
   exists ps', spatial_filter ps r = ret ps') /\
  (~~ well_shaped (size (ps_means3D ps)) ps ->
   spatial_filter ps r = raise IndexError).
Proof.
split=> [Hs|]; first by eexists; exact: (spatial_filter_masks r Hs).
rewrite /spatial_filter /index_mask /index_mask_shs !size_map /well_shaped.
rewrite [size (ps_means2D ps) == _]eq_sym [size (coeffs _) == _]eq_sym.
rewrite [size (ps_opacity ps) == _]eq_sym [size (ps_scales ps) == _]eq_sym.
rewrite [size (ps_rotations ps) == _]eq_sym eqxx bind_ret /=.
by do 5 (case: eqP => _ //; rewrite bind_ret).
Qed.

Lemma map_all_true T (p : pred T) (l : seq T) :
  all p l -> [seq p x | x <- l] = nseq (size l) true.
Proof. by elim: l => [|x l IH] //= /andP [-> /IH ->]. Qed.

Lemma map_none_false T (p : pred T) (l : seq T) :
  ~~ has p l -> [seq p x | x <- l] = nseq (size l) false.
Proof. by elim: l => [|x l IH] //=; rewrite negb_or => /andP [/negbTE -> /IH ->]. Qed.

Lemma spatial_filter_all_within n ps r :
  well_shaped n ps -> all (within_radius r) (ps_means3D ps) ->
  spatial_filter ps r = ret ps.
Proof.
move=> Hs /map_all_true Ha; rewrite (spatial_filter_masks r Hs) /radius_mask Ha.
case/well_shapedP: Hs => H1 H2 H3 [H4 H5 H6].
rewrite !mask_true ?H1 ?H2 ?H3 ?H4 ?H5 ?H6 //.
by case: ps {H1 H2 H3 H4 H5 H6 Ha} => ? ? [? ?] ? ? ?.
Qed.

Lemma masks_shaped n ps (m : bitseq) :
  well_shaped n ps -> size m = n ->
  well_shaped (count id m)
    {| ps_means3D := mask m (ps_means3D ps);
       ps_means2D := mask m (ps_means2D ps);
       ps_shs := mkSHs (shape1 (ps_shs ps)) (mask m (coeffs (ps_shs ps)));
       ps_opacity := mask m (ps_opacity ps);
       ps_scales := mask m (ps_scales ps);
       ps_rotations := mask m (ps_rotations ps) |}.
Proof.
case/well_shapedP=> H1 H2 H3 [H4 H5 H6] Hm.
by apply/well_shapedP; do !split=> /=;
  rewrite size_mask ?Hm ?H1 ?H2 ?H3 ?H4 ?H5 ?H6.
Qed.

(** When every position is within the radius the filter changes
    nothing; when none is, it leaves no row and keeps the coefficient
    width. *)
Theorem spatial_filter_all_or_none n ps r :
  well_shaped n ps ->
  (all (within_radius r) (ps_means3D ps) -> spatial_filter ps r = ret ps) /\
  (~~ has (within_radius r) (ps_means3D ps) ->
   spatial_filter ps r =
   ret {| ps_means3D := [::]; ps_means2D := [::];
          ps_shs := mkSHs (shape1 (ps_shs ps)) [::];
          ps_opacity := [::]; ps_scales := [::]; ps_rotations := [::] |}).
Proof.
move=> Hs; split; first exact: (spatial_filter_all_within Hs).
move=> /map_none_false Hn.
by rewrite (spatial_filter_masks r Hs) /radius_mask Hn !mask_false.
Qed.

(** Filtering what was filtered, with the same radius, changes nothing. *)
Theorem spatial_filter_idempotent ps r ps' :
  spatial_filter ps r = ret ps' -> spatial_filter ps' r = ret ps'.
Proof.
move=> Hf; have Hs := spatial_filter_shaped Hf.
move: Hf; rewrite (spatial_filter_masks r Hs) => -[<-].
apply: (@spatial_filter_all_within (count id (radius_mask r (ps_means3D ps)))).
  by apply: masks_shaped Hs _; rewrite /radius_mask size_map.
by rewrite /= -filter_mask filter_all.
Qed.

(** *** More on the composition *)

(** The composition never fails, and it keeps the scene's coefficient
    width; when the descriptor has as many orientations as positions, the
    six arrays of the result have one length again. *)
Theorem compose_keeps_shape n ps cams :
  (exists res, compose cams ps = ret res /\
               shape1 (ps_shs res) = shape1 (ps_shs ps)) /\
  (well_shaped n ps ->
   (forall cp, cams = Some cp -> size (qs cp) = size (xyzs cp)) ->
   forall res, compose cams ps = ret res -> well_shaped (composed_size cams n) res).
Proof.
split.
  rewrite /compose; case: cams => [cp|]; last by exists ps.
  case: (show_cameras cp); last by exists ps.
  case: (show_scene cp); last by eexists.
  by rewrite /cat_shs /= eqxx bind_ret; eexists.
move=> Hs Hq res; rewrite /compose /composed_size.
case: cams Hq => [cp|] Hq; last by case=> <-.
case: (show_cameras cp); last by case=> <-.
have Hm : well_shaped (size (xyzs cp)) (marker_set cp (shape1 (ps_shs ps))).
  by rewrite /marker_set /well_shaped /= /add_columns /add_scalar3 /add_scalar4
             /zeros_like3 !size_map (Hq cp erefl) !eqxx.
case: (show_scene cp); last by case=> <-.
rewrite /cat_shs eqxx bind_ret => -[<-].
case/well_shapedP: Hs => H1 H2 H3 [H4 H5 H6].
case/well_shapedP: Hm => M1 M2 M3 [M4 M5 M6].
by apply/well_shapedP; do !split=> /=;
  rewrite size_cat ?H1 ?H2 ?H3 ?H4 ?H5 ?H6 ?M1 ?M2 ?M3 ?M4 ?M5 ?M6.
Qed.


(** *** The preview as a whole *)

(** For a model whose arrays, activated, all have one row per primitive,
    the preview with "coarse" in the stage never fails on its own: it
    filters, composes and calls the rasterizer once, and its result is the
    rasterizer's answer. *)
Theorem preview_coarse_path cam pc pipe bg sm stage ct cams r :
  str_in "coarse" stage ->
  well_shaped (size (get_xyz pc)) (model_set pc) ->
  exists filtered final,
    [/\ spatial_filter (model_set pc) r = ret filtered,
        compose cams filtered = ret final
      & render_no_train cam pc pipe bg sm stage ct cams r =
        ([:: Rasterize (settings_of cam pc pipe bg sm) (preview_args final)],
         packaged (anchor_of pc)
           (rasterizer (settings_of cam pc pipe bg sm) (preview_args final)))].
Proof.
move=> Hc Hs.
have [filtered Hf] : exists filtered, spatial_filter (model_set pc) r = ret filtered.
  by eexists; exact: (spatial_filter_masks r Hs).
have [final Hfin] : exists final, compose cams filtered = ret final.
  rewrite /compose; case: (cams) => [cp|]; last by exists filtered.
  case: (show_cameras cp); last by exists filtered.
  case: (show_scene cp); last by eexists.
  by rewrite /cat_shs /= eqxx bind_ret; eexists.
exists filtered, final; split=> //.
rewrite /render_no_train -/(anchor_of pc) (stage_coarse _ _ _ _ _ _ _ Hc).
rewrite bind_ret /activate !bind_ret -/(model_set pc) Hf bind_ret Hfin bind_ret.
exact: rasterizer_step.
Qed.

(** The preview always leaves the colours to the rasterizer and always
    passes scales and rotations, never a covariance; the two flags of
    [pipe] about that, and [cam_type], make no difference to it. *)
Theorem preview_ignores_pipeline_flags cam pc pipe pipe' bg sm stage ct ct' cams r :
  (debug pipe = debug pipe' ->
   render_no_train cam pc pipe bg sm stage ct cams r =
   render_no_train cam pc pipe' bg sm stage ct' cams r) /\
  (forall st a,
     List.In (Rasterize st a)
       (trace (render_no_train cam pc pipe bg sm stage ct cams r)) ->
     [/\ colors_precomp a = None, cov3D_precomp a = None,
         scales a <> None & rotations a <> None]).
Proof.
split=> [Hd|st a Hin]; first by rewrite /render_no_train /settings_of Hd.
have [m [sr [rr [o [c [filtered [final [_ _ _ _ ->]]]]]]]] :=
  render_no_train_rasterize_inv Hin.
by [].
Qed.

(** A deformation that returns another number of positions than the
    model has makes the preview end with [IndexError] at the mask of the
    anchor, before the rasterizer; [render] has no such check. *)
Theorem preview_row_count_mismatch cam pc pipe bg sm stage ct cams r m sr rr o c :
  ~~ str_in "coarse" stage -> str_in "fine" stage ->
  _deformation pc (get_xyz pc) (Some (_scaling pc)) (Some (_rotation pc))
    (_opacity pc) (get_features pc) (nseq (size (get_xyz pc)) (time cam))
  = inr (m, Some sr, Some rr, o, c) ->
  size m != size (get_xyz pc) ->
  render_no_train cam pc pipe bg sm stage ct cams r =
  ([:: Deformation (get_xyz pc) (Some (_scaling pc)) (Some (_rotation pc))
         (_opacity pc) (get_features pc) (nseq (size (get_xyz pc)) (time cam))],
   inl IndexError).
Proof.
move=> /negbTE Hc Hf Hd Hm.
rewrite /render_no_train -/(anchor_of pc) /deformation_stage Hc Hf.
rewrite /call_deformation /call Hd; apply: call_step.
rewrite /= !bind_ret /spatial_filter /index_mask /= !size_map eqxx bind_ret.
by rewrite (negbTE Hm).
Qed.

End Paths.

Section Markers.

Context {F : Type} {num : Scalar F} {laws : ScalarLaws F}.

(** The markers made of a descriptor: its positions and orientations, a
    zero anchor and [c] zero coefficients for each, opacity one and the
    descriptor's scale in every row. *)
Theorem markers_from_descriptor (cp : @CamsPC F) (c : nat) :
  marker_set cp c =
  {| ps_means3D := xyzs cp;
     ps_means2D := nseq (size (xyzs cp)) zero3;
     ps_shs := mkSHs c (nseq (size (xyzs cp)) (nseq c zero3));
     ps_opacity := nseq (size (xyzs cp)) fone;
     ps_scales := nseq (size (xyzs cp)) (scale cp);
     ps_rotations := qs cp |}.
Proof. exact: marker_setE. Qed.

End Markers.

(* ===================================================================== *)
(** ** The paths, on the small scene *)
(* ===================================================================== *)

Lemma render_coarse_path_witness :
  [/\ str_in "coarse" "coarse", py_neq_str None "PanopticSports",
      ~~ compute_cov3D_python (Scene.pipe false false)
    & ~~ convert_SHs_python (Scene.pipe false false)] /\
  exists st a,
    Scene.run false false None "coarse" =
    ([:: RetainGrad (anchor_of Scene.pc); Rasterize st a],
     packaged (anchor_of Scene.pc) (Scene.rasterizer st a)).
Proof.
split=> //; do 2 eexists.
exact: (@render_coarse_path _ _ _ _ Scene.no_grad Scene.eval_sh Scene.rasterizer
          Scene.camera Scene.pc (Scene.pipe false false) Scene.bg (Scene.z 1)
          None "coarse" None isT isT isT isT).
Defined.



Lemma deform_gs_paths_witness :
  str_in "coarse" "coarse" /\
  outcome (deform_gs Scene.no_grad (Scene.z 0) Scene.pc "coarse")
  = inr [:: (Scene.z 3, Scene.z 4, Scene.z 0)] /\
  (~~ str_in "coarse" "fine" /\ str_in "fine" "fine") /\
  outcome (deform_gs Scene.no_grad (Scene.z 0) Scene.pc "fine")
  = inr [:: (Scene.z 4, Scene.z 0, Scene.z 3)].
Proof.
have [H1 _] := deform_gs_paths Scene.no_grad (Scene.z 0) Scene.pc "coarse".
have [_ H2] := deform_gs_paths Scene.no_grad (Scene.z 0) Scene.pc "fine".
by split; [|rewrite (H1 isT) (H2 isT isT)].
Defined.

Lemma render_answers_with_rasterizer_witness :
  exists st a out,
    [/\ List.In (Rasterize st a) (trace (Scene.run false true None "fine")),
        outcome (Scene.run false true None "fine") = inr out,
        rasterized (trace (Scene.run false true None "fine")) = [:: a],
        viewspace_points out = means2D a
      & visibility_filter out = [:: true]].
Proof.
have [st [a Hin]] : exists st a,
    List.In (Rasterize st a) (trace (Scene.run false true None "fine")).
  by do 2 eexists; find_call.
have [Ho Hr Hm] := render_answers_with_rasterizer Hin.
exists st, a; eexists.
split; [ exact: Hin | exact: Ho | exact: Hr | by rewrite Hm | ].
by move: Hin; vm_compute => -[|[|[|[]]]] // [_ <-].
Defined.

Lemma preview_answers_with_rasterizer_witness :
  exists st a out,
    [/\ List.In (Rasterize st a)
          (trace (Scene.preview "fine" (Some (Scene.marker true true)) (Scene.z 6))),
        outcome (Scene.preview "fine" (Some (Scene.marker true true)) (Scene.z 6))
        = inr out,
        size (trace (Scene.preview "fine" (Some (Scene.marker true true)) (Scene.z 6)))
        = 2
      & radii out = [:: 1%Z; 1%Z]].
Proof.
have [st [a Hin]] : exists st a,
    List.In (Rasterize st a)
      (trace (Scene.preview "fine" (Some (Scene.marker true true)) (Scene.z 6))).
  by do 2 eexists; find_call.
have [Ho Ht] :=
  @preview_answers_with_rasterizer _ _ _ _ Scene.rasterizer Scene.camera Scene.pc
    (Scene.pipe false false) Scene.bg (Scene.z 1) "fine" None
    (Some (Scene.marker true true)) (Scene.z 6) st a Hin.
exists st, a; eexists.
split; [ exact: Hin | exact: Ho | by rewrite Ht | ].
by move: Hin; vm_compute => -[|[|[]]] // [_ <-].
Defined.

Lemma render_panoptic_settings_witness :
  exists st a,
    List.In (Rasterize st a)
      (trace (render Scene.no_grad Scene.eval_sh Scene.rasterizer Scene.dict_camera
                Scene.pc (Scene.pipe false false) Scene.bg (Scene.z 1) None "fine"
                (Some "PanopticSports"%string))) /\
    st = Scene.dict_settings.
Proof.
have [H _] :=
  render_panoptic_settings Scene.no_grad Scene.eval_sh Scene.rasterizer
    Scene.dict_settings (Scene.z 7) Scene.pc (Scene.pipe false false) Scene.bg
    (Scene.z 1) None "fine".
have [st [a Hin]] : exists st a,
    List.In (Rasterize st a)
      (trace (render Scene.no_grad Scene.eval_sh Scene.rasterizer Scene.dict_camera
                Scene.pc (Scene.pipe false false) Scene.bg (Scene.z 1) None "fine"
                (Some "PanopticSports"%string))).
  by do 2 eexists; find_call.
by exists st, a; split=> //; exact: (H st a Hin).
Defined.

Lemma render_panoptic_sh_conversion_witness :
  [/\ convert_SHs_python (Scene.pipe false true), str_in "coarse" "coarse",
      ~~ compute_cov3D_python (Scene.pipe false true)
    & shape1 (get_features Scene.pc) = (max_sh_degree Scene.pc + 1) ^ 2] /\
  outcome (render Scene.no_grad Scene.eval_sh Scene.rasterizer Scene.dict_camera
             Scene.pc (Scene.pipe false true) Scene.bg (Scene.z 1) None "coarse"
             (Some "PanopticSports"%string)) = inl AttributeError.
Proof.
have [_ _ H] :=
  @render_panoptic_sh_conversion _ _ _ _ Scene.no_grad Scene.eval_sh
    Scene.rasterizer Scene.dict_settings (Scene.z 7) Scene.pc
    (Scene.pipe false true) Scene.bg (Scene.z 1) "coarse" isT.
by split; [|exact: (H isT isT erefl)].
Defined.

Lemma spatial_filter_needs_one_length_witness :
  well_shaped (size (ps_means3D Scene.three)) Scene.three /\
  (exists ps', spatial_filter Scene.three (Scene.z 2) = ret ps') /\
  ~~ well_shaped (size (ps_means3D Scene.ragged)) Scene.ragged /\
  spatial_filter Scene.ragged (Scene.z 2) = raise IndexError.
Proof.
have [H1 _] := spatial_filter_needs_one_length Scene.three (Scene.z 2).
have [_ H2] := spatial_filter_needs_one_length Scene.ragged (Scene.z 2).
split; first by [].
split; first exact: (H1 isT).
by split; [|exact: (H2 isT)].
Defined.

Lemma spatial_filter_all_or_none_witness :
  [/\ well_shaped 3 Scene.three,
      all (within_radius (Scene.z 6)) (ps_means3D Scene.three)
    & ~~ has (within_radius (Scene.z 1)) (ps_means3D Scene.three)] /\
  spatial_filter Scene.three (Scene.z 6) = ret Scene.three /\
  exists ps', spatial_filter Scene.three (Scene.z 1) = ret ps' /\
              ps_means3D ps' = [::] /\ shape1 (ps_shs ps') = 1.
Proof.
have Hs : well_shaped 3 Scene.three by [].
have [H1 _] := spatial_filter_all_or_none (Scene.z 6) Hs.
have [_ H2] := spatial_filter_all_or_none (Scene.z 1) Hs.
split; first by [].
split; first exact: (H1 isT).
by eexists; split; first exact: (H2 isT).
Defined.

Lemma spatial_filter_idempotent_witness :
  exists ps',
    [/\ spatial_filter Scene.three (Scene.z 3) = ret ps',
        size (ps_means3D ps') = 2
      & spatial_filter ps' (Scene.z 3) = ret ps'].
Proof.
have [ps' Hf] : exists ps', spatial_filter Scene.three (Scene.z 3) = ret ps'.
  by eexists; vm_compute.
exists ps'; split=> //; last exact: (spatial_filter_idempotent Hf).
by move: Hf; vm_compute => -[<-].
Defined.

Lemma compose_keeps_shape_witness :
  [/\ well_shaped 3 Scene.three,
      size (qs (Scene.marker true true)) = size (xyzs (Scene.marker true true))
    & exists res, compose (Some (Scene.marker true true)) Scene.three = ret res /\
                  well_shaped 4 res].
Proof.
have Hs : well_shaped 3 Scene.three by [].
have [[res [Hc _]] H] :=
  @compose_keeps_shape _ _ 3 Scene.three (Some (Scene.marker true true)).
split=> //; exists res; split=> //.
by apply: (H Hs _ res Hc) => cp [<-].
Defined.

Lemma preview_coarse_path_witness :
  str_in "coarse" "coarse" /\
  well_shaped (size (get_xyz Scene.pc)) (model_set Scene.pc) /\
  exists st a,
    Scene.preview "coarse" (Some (Scene.marker true true)) (Scene.z 2) =
    ([:: Rasterize st a], packaged (anchor_of Scene.pc) (Scene.rasterizer st a)).
Proof.
have [filtered [final [_ _ H]]] :=
  @preview_coarse_path _ _ _ _ Scene.rasterizer Scene.camera Scene.pc
    (Scene.pipe false false) Scene.bg (Scene.z 1) "coarse" None
    (Some (Scene.marker true true)) (Scene.z 2) isT isT.
by split=> //; split=> //; do 2 eexists; exact: H.
Defined.

Lemma preview_ignores_pipeline_flags_witness :
  debug (Scene.pipe false false) = debug (Scene.pipe true true) /\
  Scene.preview "fine" None (Scene.z 6) =
  render_no_train Scene.rasterizer Scene.camera Scene.pc (Scene.pipe true true)
    Scene.bg (Scene.z 1) "fine" (Some "PanopticSports"%string) None (Scene.z 6) /\
  exists st a,
    [/\ List.In (Rasterize st a) (trace (Scene.preview "fine" None (Scene.z 6))),
        colors_precomp a = None & cov3D_precomp a = None].
Proof.
have [H1 H2] :=
  preview_ignores_pipeline_flags Scene.rasterizer Scene.camera Scene.pc
    (Scene.pipe false false) (Scene.pipe true true) Scene.bg (Scene.z 1) "fine"
    None (Some "PanopticSports"%string) None (Scene.z 6).
split; first by [].
split; first exact: (H1 erefl).
have [st [a Hin]] : exists st a,
    List.In (Rasterize st a) (trace (Scene.preview "fine" None (Scene.z 6))).
  by do 2 eexists; find_call.
by exists st, a; have [? ? _ _] := H2 st a Hin.
Defined.

Lemma preview_row_count_mismatch_witness :
  [/\ ~~ str_in "coarse" "fine", str_in "fine" "fine"
    & size (get_xyz Scene.pc ++ get_xyz Scene.pc) != size (get_xyz Scene.pc)] /\
  outcome (render_no_train Scene.rasterizer Scene.camera
             (Scene.pc_with Scene.doubling) (Scene.pipe false false) Scene.bg
             (Scene.z 1) "fine" None None (Scene.z 6)) = inl IndexError.
Proof.
split; first by [].
by rewrite (@preview_row_count_mismatch _ _ _ _ Scene.rasterizer Scene.camera
              (Scene.pc_with Scene.doubling) (Scene.pipe false false) Scene.bg
              (Scene.z 1) "fine" None None (Scene.z 6) _ _ _ _ _
              isT isT erefl isT).
Defined.

Lemma markers_from_descriptor_witness :
  ps_opacity (marker_set (Scene.markers8 true true) 16) = nseq 8 1%Q /\
  coeffs (ps_shs (marker_set (Scene.markers8 true true) 16))
  = nseq 8 (nseq 16 (0%Q, 0%Q, 0%Q)).
Proof.
by rewrite (@markers_from_descriptor _ _ Q_laws (Scene.markers8 true true) 16).
Defined.
